(** * count_particles.py: crack-separated particle counting

    A shallow embedding of [src/count_particles.py].  The three pipeline
    stages [specimen_mask], [crack_mask] and [count_particles] are
    transcribed line by line.  The OpenCV and NumPy primitives they call
    are modelled in the modules [cv2] and [np] from the documented
    behaviour of the library (OpenCV 4.x, 8-bit images):

    - integer primitives (colour conversion, the 5x5 binomial blur,
      morphology, bitwise operations, labelling) are modelled exactly on
      the arrays the pipeline passes them: non-empty 8-bit arrays of one
      shape.  OpenCV rejects an empty array in [cv2.cvtColor] and reads a
      1x1 operand of [cv2.bitwise_and] as a scalar; the model does neither,
      and the theorems that assert a return assume a non-empty image;
    - primitives that OpenCV computes in binary floating point (Otsu's
      criterion, CLAHE look-up tables and interpolation) are modelled in
      exact rational arithmetic, which can differ from OpenCV in a tie or
      a rounding; the general theorems below do not depend on the computed
      values;
    - [cv2.putText] (Hershey font rasterisation) is a parameter. *)

From Stdlib Require Import String Ascii DecimalString.
From Stdlib Require Import ZArith Arith Lia Bool QArith Qminmax Qround List FinFun.
Import ListNotations.
Local Open Scope Z_scope.

(** ** Arrays

    A [numpy.ndarray] of shape [(rows, cols)] holding elements of type
    [A], stored row-major.  Reads outside the stored data yield a default
    value; every array produced by [build] is rectangular. *)

Record Mat (A : Type) : Type := mkMat { rows : nat; cols : nat; data : list (list A) }.

Arguments mkMat {A} _ _ _.
Arguments rows {A} _.
Arguments cols {A} _.
Arguments data {A} _.

(** A BGR pixel as [cv2.imread] delivers it. *)
Definition BGR : Type := (Z * Z * Z)%type.

Definition shape {A} (m : Mat A) : nat * nat := (rows m, cols m).

Definition same_shape {A B} (a : Mat A) (b : Mat B) : bool :=
  (rows a =? rows b)%nat && (cols a =? cols b)%nat.

Definition inside {A} (m : Mat A) (y x : Z) : bool :=
  (0 <=? y) && (y <? Z.of_nat (rows m)) && (0 <=? x) && (x <? Z.of_nat (cols m)).

Definition mget {A} (d : A) (m : Mat A) (y x : Z) : A :=
  if inside m y x then nth (Z.to_nat x) (nth (Z.to_nat y) (data m) []) d else d.

Definition zrange (n : nat) : list Z := map Z.of_nat (seq 0 n).

Definition build {A} (h w : nat) (f : Z -> Z -> A) : Mat A :=
  mkMat h w (map (fun y => map (fun x => f y x) (zrange w)) (zrange h)).

(** All coordinates [(y, x)] of an array in row-major order. *)
Definition coords {A} (m : Mat A) : list (Z * Z) :=
  flat_map (fun y => map (fun x => (y, x)) (zrange (cols m))) (zrange (rows m)).

(** A pixel is foreground when it is non-zero. *)
Definition fg (m : Mat Z) (y x : Z) : Prop := mget 0 m y x <> 0.

Definition fgb (m : Mat Z) (y x : Z) : bool := negb (mget 0 m y x =? 0).

(** Every stored value is a valid [uint8]. *)
Definition u8 (m : Mat Z) : Prop := forall y x, 0 <= mget 0 m y x <= 255.

Definition sum_Z (l : list Z) : Z := fold_right Z.add 0 l.

(** ** OpenCV primitives *)

Module cv2.

(** [cv2.cvtColor(image, cv2.COLOR_BGR2GRAY)] on 8-bit data: fixed-point
    weights 0.114, 0.587, 0.299 scaled by 2^15, rounded. *)
Definition BY15 : Z := 3735.
Definition GY15 : Z := 19235.
Definition RY15 : Z := 9798.

Definition gray_of (p : BGR) : Z :=
  let '(b, g, r) := p in
  Z.shiftr (b * BY15 + g * GY15 + r * RY15 + Z.shiftl 1 14) 15.

Definition cvtColor_BGR2GRAY (image : Mat BGR) : Mat Z :=
  build (rows image) (cols image) (fun y x => gray_of (mget (0, 0, 0) image y x)).

(** [BORDER_REFLECT_101] index folding ([gfedcb|abcdefgh|gfedcba]). *)
Fixpoint reflect101_fuel (fuel : nat) (p len : Z) : Z :=
  match fuel with
  | O => 0
  | S fuel' =>
      if (0 <=? p) && (p <? len) then p
      else if p <? 0 then reflect101_fuel fuel' (- p) len
      else reflect101_fuel fuel' (2 * (len - 1) - p) len
  end.

Definition reflect101 (p len : Z) : Z :=
  if len <=? 1 then 0 else reflect101_fuel (Z.to_nat (Z.abs p) + 2) p len.

(** [cv2.GaussianBlur(gray, (5, 5), 0)]: with a non-positive sigma and a
    kernel size of 5 OpenCV takes the fixed kernel [1 4 6 4 1]/16; on 8-bit
    data the separable filter is evaluated in fixed point and rounded to
    nearest once. *)
Definition small_gaussian_tab5 : list Z := [1; 4; 6; 4; 1].

Definition taps5 : list (Z * Z) :=
  combine [-2; -1; 0; 1; 2] small_gaussian_tab5.

Definition GaussianBlur_5x5 (src : Mat Z) : Mat Z :=
  let h := Z.of_nat (rows src) in
  let w := Z.of_nat (cols src) in
  build (rows src) (cols src) (fun y x =>
    let s := sum_Z (map (fun '(dy, ky) =>
               ky * sum_Z (map (fun '(dx, kx) =>
                 kx * mget 0 src (reflect101 (y + dy) h) (reflect101 (x + dx) w)) taps5)) taps5) in
    Z.shiftr (s + 128) 8).

(** Histogram of an 8-bit image: [hist src i] is the number of pixels
    equal to [i]. *)
Definition count_eq (v : Z) (l : list Z) : Z :=
  fold_left (fun acc u => if u =? v then acc + 1 else acc) l 0.

Definition hist (src : Mat Z) : list Z :=
  let flat := concat (data src) in
  map (fun i => count_eq i flat) (zrange 256).

(** Otsu's threshold ([getThreshVal_Otsu_8u]), the loop transcribed with
    rationals in place of doubles.  State: [(mu1, q1, max_sigma, max_val)]. *)
Definition FLT_EPSILON : Q := 1 # 8388608.

Definition otsu_state : Type := (Q * Q * Q * Z)%type.

Definition Qltb (a b : Q) : bool := negb (Qle_bool b a).

Definition otsu_step (scale mu : Q) (st : otsu_state) (ih : Z * Z) : otsu_state :=
  let '(mu1, q1, max_sigma, max_val) := st in
  let '(i, hi) := ih in
  let p_i := Qred (inject_Z hi * scale) in
  let mu1 := Qred (mu1 * q1) in
  let q1 := Qred (q1 + p_i) in
  let q2 := Qred (1 - q1) in
  if Qltb (Qmin q1 q2) FLT_EPSILON || Qltb (1 - FLT_EPSILON) (Qmax q1 q2)
  then (mu1, q1, max_sigma, max_val)
  else
    let mu1 := Qred ((mu1 + inject_Z i * p_i) / q1) in
    let mu2 := Qred ((mu - q1 * mu1) / q2) in
    let sigma := Qred (q1 * q2 * (mu1 - mu2) * (mu1 - mu2)) in
    if Qltb max_sigma sigma
    then (mu1, q1, sigma, i)
    else (mu1, q1, max_sigma, max_val).

Definition otsu (src : Mat Z) : Z :=
  let h := hist src in
  let ih := combine (zrange 256) h in
  let scale := Qred (1 / inject_Z (Z.of_nat (rows src) * Z.of_nat (cols src))) in
  let mu := Qred (inject_Z (sum_Z (map (fun '(i, hi) => i * hi) ih)) * scale) in
  let '(_, _, _, max_val) := fold_left (otsu_step scale mu) ih (0%Q, 0%Q, 0%Q, 0) in
  max_val.

(** [cv2.threshold(src, 0, maxval, THRESH_BINARY + THRESH_OTSU)]: the
    threshold argument is ignored and replaced by Otsu's value. *)
Definition threshold_BINARY_OTSU (src : Mat Z) (maxval : Z) : Z * Mat Z :=
  let t := otsu src in
  (t, build (rows src) (cols src) (fun y x => if t <? mget 0 src y x then maxval else 0)).

(** [cv2.getStructuringElement(cv2.MORPH_ELLIPSE, (w, h))]: row [i] is
    filled between [c - dx] and [c + dx] where
    [dx = round (c * sqrt (1 - dy^2 / r^2))]. *)
Definition ellipse_dx (r c dy : Z) : Z :=
  if r =? 0 then 0
  else (Z.sqrt ((4 * c * c * (r * r - dy * dy)) / (r * r)) + 1) / 2.

Definition getStructuringElement_ELLIPSE (ksize : nat * nat) : Mat Z :=
  let '(w, h) := ksize in
  let r := Z.of_nat h / 2 in
  let c := Z.of_nat w / 2 in
  build h w (fun i j =>
    let dy := i - r in
    if Z.abs dy <=? r then
      let dx := ellipse_dx r c dy in
      let j1 := Z.max (c - dx) 0 in
      let j2 := Z.min (c + dx + 1) (Z.of_nat w) in
      if (j1 <=? j) && (j <? j2) then 1 else 0
    else 0).

(** Offsets of the non-zero kernel cells relative to the default anchor
    (the kernel centre). *)
Definition kernel_offsets (k : Mat Z) : list (Z * Z) :=
  let ay := Z.of_nat (rows k) / 2 in
  let ax := Z.of_nat (cols k) / 2 in
  filter (fun '(dy, dx) => negb (mget 0 k (dy + ay) (dx + ax) =? 0))
         (map (fun '(y, x) => (y - ay, x - ax)) (coords k)).

(** One pass of dilation / erosion with the default border: pixels outside
    the image never win ([0] under max, [255] under min). *)
Definition pixel_or (border : Z) (src : Mat Z) (y x : Z) : Z :=
  if inside src y x then mget 0 src y x else border.

Definition window (border : Z) (src : Mat Z) (offs : list (Z * Z)) (y x : Z) : list Z :=
  map (fun '(dy, dx) => pixel_or border src (y + dy) (x + dx)) offs.

Definition dilate1 (offs : list (Z * Z)) (src : Mat Z) : Mat Z :=
  build (rows src) (cols src) (fun y x => fold_left Z.max (window 0 src offs y x) 0).

Definition erode1 (offs : list (Z * Z)) (src : Mat Z) : Mat Z :=
  build (rows src) (cols src) (fun y x => fold_left Z.min (window 255 src offs y x) 255).

(** [cv2.dilate] / [cv2.erode] with [iterations]: a non-rectangular kernel
    is applied repeatedly. *)
Definition dilate (src : Mat Z) (kernel : Mat Z) (iterations : nat) : Mat Z :=
  Nat.iter iterations (dilate1 (kernel_offsets kernel)) src.

Definition erode (src : Mat Z) (kernel : Mat Z) (iterations : nat) : Mat Z :=
  Nat.iter iterations (erode1 (kernel_offsets kernel)) src.

Inductive MorphTypes : Type := MORPH_OPEN | MORPH_CLOSE | MORPH_BLACKHAT.

(** Saturating 8-bit subtraction ([cv2.subtract]). *)
Definition subtract (a b : Mat Z) : Mat Z :=
  build (rows a) (cols a) (fun y x => Z.min 255 (Z.max 0 (mget 0 a y x - mget 0 b y x))).

Definition morphologyEx (src : Mat Z) (op : MorphTypes) (kernel : Mat Z) (iterations : nat) : Mat Z :=
  match op with
  | MORPH_OPEN => dilate (erode src kernel iterations) kernel iterations
  | MORPH_CLOSE => erode (dilate src kernel iterations) kernel iterations
  | MORPH_BLACKHAT => subtract (erode (dilate src kernel iterations) kernel iterations) src
  end.

(** [cv2.bitwise_and] of two arrays: raises when the operands differ in
    shape.  (A 1x1 operand, which OpenCV reads as a scalar, is not
    modelled; the pipeline passes masks of the shape of the image.) *)
Definition bitwise_and (a b : Mat Z) : option (Mat Z) :=
  if same_shape a b
  then Some (build (rows a) (cols a) (fun y x => Z.land (mget 0 a y x) (mget 0 b y x)))
  else None.

(** [cv2.bitwise_not] on [uint8]: every bit flipped, i.e. [255 - v]. *)
Definition bitwise_not (a : Mat Z) : Mat Z :=
  build (rows a) (cols a) (fun y x => Z.lxor (mget 0 a y x) 255).

(** [cv2.copyMakeBorder(src, 0, bottom, 0, right, BORDER_REFLECT_101)]. *)
Definition copyMakeBorder_REFLECT_101 (src : Mat Z) (bottom right : nat) : Mat Z :=
  let h := Z.of_nat (rows src) in
  let w := Z.of_nat (cols src) in
  build (rows src + bottom) (cols src + right)
        (fun y x => mget 0 src (reflect101 y h) (reflect101 x w)).

(** [cvRound]: round to nearest, ties to even; [saturate_cast<uchar>]. *)
Definition cvRound (q : Q) : Z :=
  let f := Qfloor q in
  let d := Qred (q - inject_Z f) in
  if Qltb (1 # 2) d then f + 1
  else if Qeq_bool d (1 # 2) then (if Z.even f then f else f + 1)
  else f.

Definition saturate_u8 (v : Z) : Z := Z.min 255 (Z.max 0 v).

(** CLAHE, look-up table of one tile: histogram, clipping with
    redistribution of the excess, cumulative sum scaled to 0..255. *)
Definition histSize : Z := 256.

Definition clip_hist (clipLimit : Z) (h : list Z) : list Z :=
  let clipped := sum_Z (map (fun v => if clipLimit <? v then v - clipLimit else 0) h) in
  let h1 := map (fun v => if clipLimit <? v then clipLimit else v) h in
  let redistBatch := clipped / histSize in
  let residual := clipped - redistBatch * histSize in
  let h2 := map (fun v => v + redistBatch) h1 in
  if residual =? 0 then h2
  else
    let residualStep := Z.max (histSize / residual) 1 in
    map (fun '(i, v) =>
           if (i mod residualStep =? 0) && (i / residualStep <? residual) then v + 1 else v)
        (combine (zrange 256) h2).

Fixpoint prefix_sums (acc : Z) (l : list Z) : list Z :=
  match l with
  | [] => []
  | v :: l' => (acc + v) :: prefix_sums (acc + v) l'
  end.

Definition tile_lut (clipLimit : Z) (lutScale : Q) (tile : list Z) : list Z :=
  let h := map (fun i => count_eq i tile) (zrange 256) in
  let h := if 0 <? clipLimit then clip_hist clipLimit h else h in
  map (fun s => saturate_u8 (cvRound (inject_Z s * lutScale))) (prefix_sums 0 h).

Definition tile_pixels (src : Mat Z) (th tw : nat) (ty tx : Z) : list Z :=
  flat_map (fun dy => map (fun dx =>
      mget 0 src (ty * Z.of_nat th + dy) (tx * Z.of_nat tw + dx)) (zrange tw)) (zrange th).

(** [cv2.createCLAHE(clipLimit, tileGridSize=(tilesX, tilesY)).apply(src)]
    for an 8-bit single-channel image. *)
Definition CLAHE_apply (clipLimit_ : Q) (tileGridSize : nat * nat) (src : Mat Z) : Mat Z :=
  let '(tilesX, tilesY) := tileGridSize in
  let srcForLut :=
    if ((cols src mod tilesX =? 0) && (rows src mod tilesY =? 0))%nat then src
    else copyMakeBorder_REFLECT_101 src (tilesY - rows src mod tilesY) (tilesX - cols src mod tilesX) in
  let tw := (cols srcForLut / tilesX)%nat in
  let th := (rows srcForLut / tilesY)%nat in
  let tileSizeTotal := Z.of_nat (tw * th) in
  let lutScale := Qred (inject_Z (histSize - 1) / inject_Z tileSizeTotal) in
  let clipLimit :=
    if Qltb 0 clipLimit_
    then Z.max (Qfloor (clipLimit_ * inject_Z tileSizeTotal / inject_Z histSize)) 1
    else 0 in
  let luts := map (fun ty => map (fun tx =>
                tile_lut clipLimit lutScale (tile_pixels srcForLut th tw ty tx))
                (zrange tilesX)) (zrange tilesY) in
  let lut ty tx v := nth (Z.to_nat v) (nth (Z.to_nat tx) (nth (Z.to_nat ty) luts []) []) 0 in
  let inv_tw := Qred (1 / inject_Z (Z.of_nat tw)) in
  let inv_th := Qred (1 / inject_Z (Z.of_nat th)) in
  build (rows src) (cols src) (fun y x =>
    let tyf := Qred (inject_Z y * inv_th - (1 # 2)) in
    let ty1 := Qfloor tyf in
    let ty2 := ty1 + 1 in
    let ya := Qred (tyf - inject_Z ty1) in
    let ya1 := Qred (1 - ya) in
    let ty1 := Z.max ty1 0 in
    let ty2 := Z.min ty2 (Z.of_nat tilesY - 1) in
    let txf := Qred (inject_Z x * inv_tw - (1 # 2)) in
    let tx1 := Qfloor txf in
    let tx2 := tx1 + 1 in
    let xa := Qred (txf - inject_Z tx1) in
    let xa1 := Qred (1 - xa) in
    let tx1 := Z.max tx1 0 in
    let tx2 := Z.min tx2 (Z.of_nat tilesX - 1) in
    let srcVal := mget 0 src y x in
    let res := ((inject_Z (lut ty1 tx1 srcVal) * xa1 + inject_Z (lut ty1 tx2 srcVal) * xa) * ya1
              + (inject_Z (lut ty2 tx1 srcVal) * xa1 + inject_Z (lut ty2 tx2 srcVal) * xa) * ya)%Q in
    saturate_u8 (cvRound res)).

(** *** Connected components

    [cv2.connectedComponentsWithStats(mask)] with its default arguments:
    8-way connectivity (cells that share an edge or a corner), every
    non-zero pixel is foreground, label 0 is the background.  OpenCV's
    block-based scan numbers the components in the order in which it meets
    their first 2x2 block; [block_key] is the rank of a pixel in that scan.

    The labelling is computed by propagating the smallest key through
    8-neighbours until nothing changes; the component of a pixel is then
    named by the smallest key it contains, and components are numbered
    1, 2, ... in ascending order of that key. *)
Definition block_key (w : nat) (y x : Z) : Z :=
  let w2 := (Z.of_nat w + 1) / 2 in
  4 * ((y / 2) * w2 + x / 2) + 2 * (y mod 2) + x mod 2 + 1.

Definition neighbours8 : list (Z * Z) :=
  [(-1, -1); (-1, 0); (-1, 1); (0, -1); (0, 1); (1, -1); (1, 0); (1, 1)].

Definition init_labels (m : Mat Z) : Mat Z :=
  build (rows m) (cols m) (fun y x =>
    if mget 0 m y x =? 0 then 0 else block_key (cols m) y x).

Definition relax (L : Mat Z) : Mat Z :=
  build (rows L) (cols L) (fun y x =>
    let l := mget 0 L y x in
    if l =? 0 then 0
    else fold_left Z.min
           (filter (fun l' => negb (l' =? 0)) (window 0 L neighbours8 y x)) l).

Definition row_eqb (a b : list Z) : bool :=
  (length a =? length b)%nat && forallb (fun '(u, v) => u =? v) (combine a b).

Definition mat_eqb (a b : Mat Z) : bool :=
  (rows a =? rows b)%nat && (cols a =? cols b)%nat
  && (length (data a) =? length (data b))%nat
  && forallb (fun '(u, v) => row_eqb u v) (combine (data a) (data b)).

(** [settle k L] applies [relax] until a fixed point, at most [2^k] times
    (it stops as soon as a whole round changes nothing). *)
Fixpoint settle (k : nat) (L : Mat Z) : Mat Z :=
  match k with
  | O => relax L
  | S k' =>
      let L1 := settle k' L in
      if mat_eqb L1 L then L1 else settle k' L1
  end.

Definition propagate (m : Mat Z) : Mat Z :=
  let L0 := init_labels m in
  settle (Z.to_nat (Z.log2_up (sum_Z (List.concat (data L0)) + 2))) L0.

Fixpoint insert_sorted (v : Z) (l : list Z) : list Z :=
  match l with
  | [] => [v]
  | u :: l' => if v <=? u then v :: l else u :: insert_sorted v l'
  end.

Definition sort_keys (l : list Z) : list Z := fold_right insert_sorted [] l.

(** Keys of the components: the pixels that kept their own key. *)
Definition roots (m L : Mat Z) : list Z :=
  sort_keys
    (map (fun '(y, x) => mget 0 L y x)
       (filter (fun '(y, x) =>
                  negb (mget 0 L y x =? 0) && (mget 0 L y x =? block_key (cols m) y x))
               (coords m))).

Fixpoint index_of (v : Z) (l : list Z) : Z :=
  match l with
  | [] => 0
  | u :: l' => if u =? v then 0 else 1 + index_of v l'
  end.

(** Returns [(n_labels, labels, areas)]; [areas] is the [CC_STAT_AREA]
    column of [stats], the only column the program reads. *)
Definition connectedComponentsWithStats (m : Mat Z) : Z * Mat Z * list Z :=
  let L := propagate m in
  let rs := roots m L in
  let n_labels := 1 + Z.of_nat (length rs) in
  let labels := build (rows m) (cols m) (fun y x =>
                  let l := mget 0 L y x in
                  if l =? 0 then 0 else 1 + index_of l rs) in
  let flat := List.concat (data labels) in
  let areas := map (fun l => count_eq l flat) (zrange (Z.to_nat n_labels)) in
  (n_labels, labels, areas).

End cv2.

(** ** NumPy primitives *)

Module np.

(** [np.argmax] of a one-dimensional array: the first index of the
    maximum; raises on an empty array. *)
Fixpoint argmax_from (best_i best_v i : Z) (l : list Z) : Z :=
  match l with
  | [] => best_i
  | v :: l' =>
      if best_v <? v then argmax_from i v (i + 1) l'
      else argmax_from best_i best_v (i + 1) l'
  end.

Definition argmax (l : list Z) : option Z :=
  match l with
  | [] => None
  | v :: l' => Some (argmax_from 0 v 1 l')
  end.

(** [np.where(a == v, t, f)]. *)
Definition where_eq (a : Mat Z) (v t f : Z) : Mat Z :=
  build (rows a) (cols a) (fun y x => if mget 0 a y x =? v then t else f).

(** [np.where(a == v)]: row and column indices of the matching cells,
    in row-major order. *)
Definition where_coords (a : Mat Z) (v : Z) : list Z * list Z :=
  let hits := filter (fun '(y, x) => mget 0 a y x =? v) (coords a) in
  (map fst hits, map snd hits).

(** [int(xs.mean())]: the mean of an integer array is the exact quotient
    rounded to a double; for every image [cv2.imread] can deliver
    (at most 2^30 pixels, sides below 2^20) the truncation of that double
    is the truncated integer quotient.  The mean of an empty array is NaN
    and [int] raises. *)
Definition int_mean (l : list Z) : option Z :=
  match l with
  | [] => None
  | _ => Some (Z.quot (sum_Z l) (Z.of_nat (length l)))
  end.

End np.

(** ** Python objects

    [count_particles] is the only function that mutates an array (it
    draws on [overlay]).  Three-channel arrays therefore live in a store
    and are named by their address; [image.copy()] allocates a new
    address, [cv2.putText] writes through the address it is given.  Every
    other OpenCV call allocates its result and leaves its arguments
    untouched, so single-channel intermediates are plain values. *)

Definition loc : Type := nat.

Definition heap : Type := list (Mat BGR).

(** State and error monad over the store. *)
Definition Py (A : Type) : Type := heap -> option (A * heap).

Definition ret {A} (a : A) : Py A := fun h => Some (a, h).

Definition bind {A B} (c : Py A) (k : A -> Py B) : Py B :=
  fun h => match c h with
           | Some (a, h') => k a h'
           | None => None
           end.

Definition raise {A} : Py A := fun _ => None.

Definition lift {A} (o : option A) : Py A :=
  match o with
  | Some a => ret a
  | None => raise
  end.

Notation "x <- c ;; k" := (bind c (fun x => k))
  (at level 61, c at next level, right associativity).

Notation "c ;;; k" := (bind c (fun _ => k))
  (at level 61, right associativity).

Definition load (l : loc) : Py (Mat BGR) :=
  fun h => match nth_error h l with
           | Some m => Some (m, h)
           | None => None
           end.

Fixpoint update {A} (l : list A) (i : nat) (v : A) : list A :=
  match l, i with
  | [], _ => []
  | _ :: l', O => v :: l'
  | u :: l', S i' => u :: update l' i' v
  end.

Definition store (l : loc) (m : Mat BGR) : Py unit :=
  fun h => if (l <? length h)%nat then Some (tt, update h l m) else None.

Definition alloc (m : Mat BGR) : Py loc :=
  fun h => Some (length h, h ++ [m]).

(** [a.copy()]. *)
Definition copy (l : loc) : Py loc :=
  m <- load l ;; alloc m.

(** ** The program *)

Import cv2.

Definition specimen_mask (image : Mat BGR) : option (Mat Z) :=
  let gray := cvtColor_BGR2GRAY image in
  let blur := GaussianBlur_5x5 gray in
  let '(_, th) := threshold_BINARY_OTSU blur 255 in
  (* Keep the largest connected bright area (glass specimen + highlights). *)
  let '(n_labels, labels, stats) := connectedComponentsWithStats th in
  if n_labels <=? 1 then Some th
  else
    match np.argmax (skipn 1 stats) with
    | None => None
    | Some i =>
        let largest := 1 + i in
        let mask := np.where_eq labels largest 255 0 in
        (* Fill small holes. *)
        let kernel := getStructuringElement_ELLIPSE (9, 9)%nat in
        let mask := morphologyEx mask MORPH_CLOSE kernel 2 in
        Some mask
    end.

(** The crack candidates before they are restricted to the specimen. *)
Definition crack_candidates (image : Mat BGR) : Mat Z :=
  let gray := cvtColor_BGR2GRAY image in
  let clahe := CLAHE_apply 2 (8, 8)%nat gray in
  (* Crack lines are generally darker than neighboring regions. *)
  let blackhat :=
    morphologyEx clahe MORPH_BLACKHAT (getStructuringElement_ELLIPSE (11, 11)%nat) 1 in
  let '(_, cracks) := threshold_BINARY_OTSU blackhat 255 in
  cracks.

Definition crack_mask (image : Mat BGR) (specimen : Mat Z) : option (Mat Z) :=
  let cracks := crack_candidates image in
  match bitwise_and cracks specimen with
  | None => None
  | Some cracks =>
      (* Thicken and bridge tiny breaks in crack boundaries. *)
      let k := getStructuringElement_ELLIPSE (3, 3)%nat in
      let cracks := dilate cracks k 1 in
      let cracks := morphologyEx cracks MORPH_CLOSE k 2 in
      Some cracks
  end.

Definition str (n : Z) : string := NilZero.string_of_int (Z.to_int n).

Definition FONT_HERSHEY_SIMPLEX : Z := 0.

Section Program.

(** [cv2.putText(img, text, org, fontFace, fontScale, color, thickness)]:
    the pixels of [img] after the text has been drawn. *)
Variable putText : Mat BGR -> string -> Z * Z -> Z -> Q -> BGR -> Z -> Mat BGR.

Definition putText_inplace (img : loc) (text : string) (org : Z * Z)
    (fontFace : Z) (fontScale : Q) (color : BGR) (thickness : Z) : Py unit :=
  m <- load img ;;
  store img (putText m text org fontFace fontScale color thickness).

(** The body of [for label in range(1, n_labels)], threading [count]. *)
Fixpoint label_loop (labels : Mat Z) (stats : list Z) (min_area : Z) (overlay : loc)
    (range : list Z) (count : Z) : Py Z :=
  match range with
  | [] => ret count
  | label :: range' =>
      let area := nth (Z.to_nat label) stats 0 in
      if area <? min_area then label_loop labels stats min_area overlay range' count
      else
        let count := count + 1 in
        let '(ys, xs) := np.where_coords labels label in
        cy <- lift (np.int_mean ys) ;;
        cx <- lift (np.int_mean xs) ;;
        putText_inplace overlay (str count) (cx - 8, cy + 5)
                        FONT_HERSHEY_SIMPLEX (35 # 100) (0, 0, 255) 1 ;;;
        label_loop labels stats min_area overlay range' count
  end.

(** [range(1, n)]. *)
Definition range1 (n : Z) : list Z := map Z.of_nat (seq 1 (Z.to_nat n - 1)).

Definition count_particles (image : loc) (min_area : Z) : Py (Z * loc) :=
  img <- load image ;;
  specimen <- lift (specimen_mask img) ;;
  cracks <- lift (crack_mask img specimen) ;;
  (* Particles are specimen regions left after removing cracks. *)
  particles <- lift (bitwise_and specimen (bitwise_not cracks)) ;;
  let particles :=
    morphologyEx particles MORPH_OPEN (getStructuringElement_ELLIPSE (3, 3)%nat) 1 in
  let '(n_labels, labels, stats) := connectedComponentsWithStats particles in
  let count := 0 in
  overlay <- copy image ;;
  count <- label_loop labels stats min_area overlay (range1 n_labels) count ;;
  ret (count, overlay).

End Program.

(** The mask that [count_particles] labels: specimen minus cracks, opened. *)
Definition particle_mask (image : Mat BGR) : option (Mat Z) :=
  match specimen_mask image with
  | None => None
  | Some specimen =>
      match crack_mask image specimen with
      | None => None
      | Some cracks =>
          match bitwise_and specimen (bitwise_not cracks) with
          | None => None
          | Some particles =>
              Some (morphologyEx particles MORPH_OPEN
                      (getStructuringElement_ELLIPSE (3, 3)%nat) 1)
          end
      end
  end.

(** ** Vocabulary of the statements *)

(** A mask whose cells are 0 or 255. *)
Definition binary (m : Mat Z) : Prop :=
  forall y x, mget 0 m y x = 0 \/ mget 0 m y x = 255.

(** Offsets of the 3x3 elliptic kernel: the centre and its four edge
    neighbours. *)
Definition cross3 : list (Z * Z) := [(-1, 0); (0, -1); (0, 0); (0, 1); (1, 0)].

(** City-block distance. *)
Definition dist1 (y x y' x' : Z) : Z := Z.abs (y - y') + Z.abs (x - x').

(** ** Connectivity

    Two cells are 8-adjacent when they share an edge or a corner and
    4-adjacent when they share an edge.  [connected adj m p q]: there is a
    path of foreground cells of [m] from [p] to [q] whose consecutive cells
    are [adj]-adjacent. *)

Definition adj8 (p q : Z * Z) : Prop :=
  Z.max (Z.abs (fst q - fst p)) (Z.abs (snd q - snd p)) = 1.

Definition adj4 (p q : Z * Z) : Prop :=
  Z.abs (fst q - fst p) + Z.abs (snd q - snd p) = 1.

Inductive connected (adj : Z * Z -> Z * Z -> Prop) (m : Mat Z) : Z * Z -> Z * Z -> Prop :=
| connected_refl p : fg m (fst p) (snd p) -> connected adj m p p
| connected_step p q r :
    fg m (fst p) (snd p) -> adj p q -> connected adj m q r -> connected adj m p r.

(** The three results of [cv2.connectedComponentsWithStats]. *)
Definition cc_n_labels (m : Mat Z) : Z := fst (fst (connectedComponentsWithStats m)).
Definition cc_labels (m : Mat Z) : Mat Z := snd (fst (connectedComponentsWithStats m)).
Definition cc_areas (m : Mat Z) : list Z := snd (connectedComponentsWithStats m).

(** Number of cells of [a] equal to [v]. *)
Definition area_of (a : Mat Z) (v : Z) : Z :=
  Z.of_nat (length (filter (fun '(y, x) => mget 0 a y x =? v) (coords a))).

(** Sum of all cells. *)
Definition total (L : Mat Z) : Z :=
  sum_Z (map (fun '(y, x) => mget 0 L y x) (coords L)).

Definition canonical (L : Mat Z) : Prop := build (rows L) (cols L) (mget 0 L) = L.

(** Invariant of the propagation: background cells carry 0, a foreground
    cell carries the key of a cell of its own component, at most its own. *)
Definition labels_inv (m L : Mat Z) : Prop :=
  rows L = rows m /\ cols L = cols m /\
  forall y x,
    (~ fg m y x -> mget 0 L y x = 0) /\
    (fg m y x ->
       mget 0 L y x <= block_key (cols m) y x /\
       exists y' x', connected adj8 m (y, x) (y', x') /\
                     mget 0 L y x = block_key (cols m) y' x').

(** Stages of [specimen_mask]: the Otsu mask of the blurred image and the
    mask of one labelled component. *)
Definition specimen_threshold (image : Mat BGR) : Mat Z :=
  snd (threshold_BINARY_OTSU (GaussianBlur_5x5 (cvtColor_BGR2GRAY image)) 255).

Definition component_mask (th : Mat Z) (l : Z) : Mat Z :=
  np.where_eq (cc_labels th) l 255 0.

(** A kernel is symmetric when it contains the opposite of each offset. *)
Definition symmetric_offsets (offs : list (Z * Z)) : bool :=
  forallb (fun '(dy, dx) =>
    existsb (fun '(ey, ex) => (ey =? - dy) && (ex =? - dx)) offs) offs.

(** ** The counting loop, region by region *)

(** The test [area < min_area] of the loop, negated. *)
Definition qualifies (stats : list Z) (min_area label : Z) : bool :=
  negb (nth (Z.to_nat label) stats 0 <? min_area).

(** [(cy, cx)] as the loop computes it for one label. *)
Definition centroid (labels : Mat Z) (label : Z) : option (Z * Z) :=
  let '(ys, xs) := np.where_coords labels label in
  match np.int_mean ys, np.int_mean xs with
  | Some cy, Some cx => Some (cy, cx)
  | _, _ => None
  end.

Section Drawing.
Variable putText : Mat BGR -> string -> Z * Z -> Z -> Q -> BGR -> Z -> Mat BGR.

(** The pixels after the rank has been drawn at one centroid. *)
Definition draw (overlay : Mat BGR) (rank : Z) (c : Z * Z) : Mat BGR :=
  putText overlay (str rank) (snd c - 8, fst c + 5)
          FONT_HERSHEY_SIMPLEX (35 # 100) (0, 0, 255) 1.

(** Drawing the labels of a list in order, ranks starting after [count]. *)
Fixpoint draw_all (labels : Mat Z) (ls : list Z) (count : Z) (overlay : Mat BGR)
    : option (Mat BGR) :=
  match ls with
  | [] => Some overlay
  | l :: ls' =>
      match centroid labels l with
      | None => None
      | Some c => draw_all labels ls' (count + 1) (draw overlay (count + 1) c)
      end
  end.

End Drawing.

(** Ranks [a, a + 1, ...]. *)
Definition ranks_from (a : Z) (n : nat) : list Z :=
  map (fun i => a + Z.of_nat i) (seq 0 n).

Definition centroid_or_origin (labels : Mat Z) (l : Z) : Z * Z :=
  match centroid labels l with
  | Some c => c
  | None => (0, 0)
  end.

(** [q] is the mean of [l] truncated to an integer. *)
Definition truncated_mean (l : list Z) (q : Z) : Prop :=
  (0 < length l)%nat /\
  Z.of_nat (length l) * q <= sum_Z l < Z.of_nat (length l) * (q + 1).

(** ** The command line

    [main] after [argparse] has produced [args]: [str(args.image)], the
    [--min-area] value and [str(args.save_overlay)] when the option is
    given (a [Path] is always true in [if args.save_overlay]).  The world holds what the process has
    printed and the files it has written.  [cv2.imread] and [cv2.imwrite]
    are parameters: [imread] yields [None] for a file that cannot be read
    as an image; [imwrite] yields [None] when it raises and otherwise its
    boolean result. *)

Record Args : Type := mkArgs {
  args_image : string;
  args_min_area : Z;
  args_save_overlay : option string
}.

Inductive Exception : Type :=
| SystemExit (message : string)
| cv2_error.

Record World : Type := mkWorld {
  stdout : list string;
  written : list (string * Mat BGR)
}.

Definition print (line : string) (w : World) : World :=
  mkWorld (stdout w ++ [line]) (written w).

Definition record_write (ok : bool) (path : string) (img : Mat BGR) (w : World) : World :=
  if ok then mkWorld (stdout w) (written w ++ [(path, img)]) else w.

Section Main.
Variable putText : Mat BGR -> string -> Z * Z -> Z -> Q -> BGR -> Z -> Mat BGR.
Variable imread : string -> option (Mat BGR).
Variable imwrite : string -> Mat BGR -> option bool.

Definition main (args : Args) (w : World) : World * option Exception :=
  match imread (args_image args) with
  | None => (w, Some (SystemExit ("Could not read image: " ++ args_image args)))
  | Some img =>
      match count_particles putText 0%nat (args_min_area args) [img] with
      | None => (w, Some cv2_error)
      | Some ((count, overlay), h) =>
          let w := print (str count) w in
          match args_save_overlay args with
          | None => (w, None)
          | Some path =>
              match nth_error h overlay with
              | None => (w, Some cv2_error)
              | Some ov =>
                  match imwrite path ov with
                  | None => (w, Some cv2_error)
                  | Some ok => (record_write ok path ov w, None)
                  end
              end
          end
      end
  end.

End Main.

(** Chessboard distance. *)
Definition dist8 (y x y' x' : Z) : Z := Z.max (Z.abs (y - y')) (Z.abs (x - x')).

(** Every offset of a kernel is at most [r] rows and [r] columns away from
    the anchor. *)
Definition offsets_within (r : Z) (offs : list (Z * Z)) : bool :=
  forallb (fun '(dy, dx) => (Z.abs dy <=? r) && (Z.abs dx <=? r)) offs.

(** The label [specimen_mask] selects, when there is one. *)
Definition largest_label (th : Mat Z) : option Z :=
  match np.argmax (skipn 1 (cc_areas th)) with
  | Some i => Some (1 + i)
  | None => None
  end.

(** ** Example inputs

    Gray images given as BGR arrays with equal channels, as [cv2.imread]
    returns them for a gray file. *)

Definition gray3 (v : Z) : BGR := (v, v, v).

Definition of_gray (m : Mat Z) : Mat BGR :=
  build (rows m) (cols m) (fun y x => gray3 (mget 0 m y x)).

(** A bright 8x8 block on a dark 8x32 background, cut by a dark line in
    row 3. *)
Definition block_with_crack : Mat BGR :=
  build 8 32 (fun y x => gray3 (if 8 <=? x then 0 else if y =? 3 then 0 else 255)).

(** An all-black 8x8 image. *)
Definition black8 : Mat BGR := build 8 8 (fun _ _ => gray3 0).

(** Two diagonal pixels. *)
Definition diagonal2 : Mat Z := mkMat 2 2 [[255; 0]; [0; 255]].

(** An 18x11 image: a dark disc that touches the left border, on a bright
    ground; the corner pixel above the tip of the disc is dark as well. *)
Definition disc_at_border_gray : Mat Z :=
  mkMat 18 11 [
     [14; 54; 254; 249; 207; 209; 224; 226; 236; 250; 255];
     [18; 72; 90; 2; 0; 162; 156; 137; 178; 236; 255];
     [4; 18; 17; 0; 0; 0; 0; 0; 129; 220; 253];
     [0; 0; 0; 0; 0; 0; 0; 0; 136; 208; 248];
     [0; 0; 0; 0; 0; 0; 0; 0; 0; 196; 238];
     [0; 0; 0; 0; 0; 0; 0; 0; 0; 178; 220];
     [0; 0; 0; 0; 0; 0; 0; 0; 0; 0; 216];
     [0; 0; 0; 0; 0; 0; 0; 0; 0; 1; 245];
     [0; 0; 0; 0; 0; 0; 0; 0; 1; 18; 253];
     [0; 0; 0; 0; 0; 0; 0; 0; 0; 1; 247];
     [0; 0; 0; 0; 0; 0; 0; 0; 0; 0; 222];
     [0; 0; 0; 0; 0; 0; 0; 0; 0; 185; 224];
     [0; 0; 0; 0; 0; 0; 0; 0; 0; 197; 238];
     [0; 0; 0; 0; 0; 0; 2; 1; 128; 206; 248];
     [24; 2; 0; 2; 2; 2; 17; 3; 117; 216; 253];
     [94; 6; 2; 81; 6; 50; 172; 146; 170; 234; 255];
     [248; 10; 15; 252; 255; 129; 238; 236; 234; 250; 255];
     [251; 104; 134; 253; 255; 225; 255; 255; 255; 255; 255]].

Definition disc_at_border : Mat BGR := of_gray disc_at_border_gray.

(** A renderer used to run the program on examples: it paints the single
    pixel at [org = (x, y)] with [color]. *)
Definition putText_dot (img : Mat BGR) (text : string) (org : Z * Z)
    (fontFace : Z) (fontScale : Q) (color : BGR) (thickness : Z) : Mat BGR :=
  build (rows img) (cols img) (fun y x =>
    if (x =? fst org) && (y =? snd org) then color else mget (0, 0, 0) img y x).

(** Two bright blocks on a dark 12x24 ground: a 3x3 block, met first in
    scan order, and a 6x10 block. *)
Definition two_blocks : Mat BGR :=
  build 12 24 (fun y x =>
    gray3 (if (2 <=? y) && (y <=? 4) && (2 <=? x) && (x <=? 4) then 255
           else if (4 <=? y) && (y <=? 9) && (11 <=? x) && (x <=? 20) then 255
           else 0)).

(** A file system with one readable image, and a writer that succeeds. *)
Definition imread_example (path : string) : option (Mat BGR) :=
  if String.eqb path "block.png" then Some block_with_crack else None.

Definition imwrite_example (path : string) (img : Mat BGR) : option bool := Some true.

(** * Verification *)

(** ** Arrays *)

Lemma inside_iff {A} (m : Mat A) y x :
  inside m y x = true <-> 0 <= y < Z.of_nat (rows m) /\ 0 <= x < Z.of_nat (cols m).
Proof.
  unfold inside. rewrite !andb_true_iff, !Z.leb_le, !Z.ltb_lt. lia.
Qed.

Lemma length_zrange n : length (zrange n) = n.
Proof. unfold zrange. now rewrite length_map, length_seq. Qed.

Lemma nth_zrange n i d : (i < n)%nat -> nth i (zrange n) d = Z.of_nat i.
Proof.
  intros Hi. unfold zrange.
  rewrite (nth_indep _ d (Z.of_nat 0)) by (now rewrite length_map, length_seq).
  rewrite map_nth, seq_nth by assumption. reflexivity.
Qed.

Lemma In_zrange n z : In z (zrange n) <-> 0 <= z < Z.of_nat n.
Proof.
  unfold zrange. rewrite in_map_iff. split.
  - intros (i & <- & Hi). apply in_seq in Hi. lia.
  - intros Hz. exists (Z.to_nat z). split; [lia|]. apply in_seq. lia.
Qed.

Lemma NoDup_zrange n : NoDup (zrange n).
Proof.
  unfold zrange. apply Injective_map_NoDup.
  - intros a b. apply Nat2Z.inj.
  - apply seq_NoDup.
Qed.

Lemma rows_build {A} h w (f : Z -> Z -> A) : rows (build h w f) = h.
Proof. reflexivity. Qed.

Lemma cols_build {A} h w (f : Z -> Z -> A) : cols (build h w f) = w.
Proof. reflexivity. Qed.

Lemma mget_build {A} (d : A) h w f y x :
  0 <= y < Z.of_nat h -> 0 <= x < Z.of_nat w -> mget d (build h w f) y x = f y x.
Proof.
  intros Hy Hx. unfold mget.
  replace (inside (build h w f) y x) with true
    by (symmetry; apply inside_iff; simpl; lia).
  simpl.
  rewrite (nth_indep _ [] (map (fun x0 => f 0 x0) (zrange w)))
    by (rewrite length_map, length_zrange; lia).
  rewrite (map_nth (fun y0 => map (fun x0 => f y0 x0) (zrange w)) (zrange h) 0).
  rewrite (nth_indep _ d (f (nth (Z.to_nat y) (zrange h) 0) 0))
    by (rewrite length_map, length_zrange; lia).
  rewrite (map_nth (fun x0 => f (nth (Z.to_nat y) (zrange h) 0) x0) (zrange w) 0).
  rewrite !nth_zrange by lia. now rewrite !Z2Nat.id by lia.
Qed.

Lemma mget_outside {A} (d : A) m y x : inside m y x = false -> mget d m y x = d.
Proof. unfold mget. now intros ->. Qed.

Lemma mget_build_inside {A} (d : A) h w f y x :
  inside (build h w f) y x = true -> mget d (build h w f) y x = f y x.
Proof. intros H. apply inside_iff in H. simpl in H. now apply mget_build. Qed.

Lemma inside_same {A B} (a : Mat A) (b : Mat B) y x :
  rows a = rows b -> cols a = cols b -> inside a y x = inside b y x.
Proof. unfold inside. now intros -> ->. Qed.

Lemma fg_inside m y x : fg m y x -> inside m y x = true.
Proof.
  unfold fg, mget. destruct (inside m y x); [reflexivity | congruence].
Qed.

Lemma build_ext {A} h w (f g : Z -> Z -> A) :
  (forall y x, 0 <= y < Z.of_nat h -> 0 <= x < Z.of_nat w -> f y x = g y x) ->
  build h w f = build h w g.
Proof.
  intros H. unfold build. f_equal.
  apply map_ext_in. intros y Hy. apply In_zrange in Hy.
  apply map_ext_in. intros x Hx. apply In_zrange in Hx. now apply H.
Qed.

Lemma In_coords {A} (m : Mat A) y x : In (y, x) (coords m) <-> inside m y x = true.
Proof.
  unfold coords. rewrite in_flat_map, inside_iff. split.
  - intros (y' & Hy & Hin). apply in_map_iff in Hin. destruct Hin as (x' & E & Hx).
    inversion E; subst. apply In_zrange in Hy, Hx. lia.
  - intros [Hy Hx]. exists y. split; [now apply In_zrange|].
    apply in_map_iff. exists x. split; [reflexivity | now apply In_zrange].
Qed.

Lemma NoDup_flat_map {A B} (f : A -> list B) l :
  NoDup l -> (forall a, In a l -> NoDup (f a)) ->
  (forall a1 a2 b, In a1 l -> In a2 l -> In b (f a1) -> In b (f a2) -> a1 = a2) ->
  NoDup (flat_map f l).
Proof.
  induction l as [|a l IH]; intros Hnd Hf Hinj; simpl; [constructor|].
  inversion Hnd as [|? ? Ha Hl]; subst.
  assert (Hrest : NoDup (flat_map f l)).
  { apply IH; auto.
    - intros a0 Ha0. apply Hf. now right.
    - intros a1 a2 b H1 H2. apply Hinj; now right. }
  assert (Hdisj : forall b, In b (f a) -> ~ In b (flat_map f l)).
  { intros b Hb Hin. apply in_flat_map in Hin. destruct Hin as (a' & Ha' & Hb').
    assert (a = a') by (apply (Hinj a a' b); simpl; auto).
    subst. contradiction. }
  assert (Hfa : NoDup (f a)) by (apply Hf; now left).
  clear - Hrest Hdisj Hfa.
  induction (f a) as [|b r IHr]; simpl; [assumption|].
  inversion Hfa; subst. constructor.
  - rewrite in_app_iff. intros [H|H]; [contradiction|].
    apply (Hdisj b); [now left | assumption].
  - apply IHr; auto. intros b' Hb'. apply Hdisj. now right.
Qed.

Lemma NoDup_coords {A} (m : Mat A) : NoDup (coords m).
Proof.
  unfold coords. apply NoDup_flat_map.
  - apply NoDup_zrange.
  - intros y _. apply Injective_map_NoDup; [|apply NoDup_zrange].
    intros a b E. now inversion E.
  - intros y1 y2 [y x] _ _ H1 H2.
    apply in_map_iff in H1, H2.
    destruct H1 as (? & E1 & _), H2 as (? & E2 & _). congruence.
Qed.

Lemma coords_same {A B} (a : Mat A) (b : Mat B) :
  rows a = rows b -> cols a = cols b -> coords a = coords b.
Proof. unfold coords. now intros -> ->. Qed.

(** ** Morphology *)

Lemma fold_max_ge l acc : acc <= fold_left Z.max l acc.
Proof.
  revert acc. induction l as [|v l IH]; intros acc; simpl; [lia|].
  specialize (IH (Z.max acc v)). lia.
Qed.

Lemma fold_max_in l acc v : In v l -> v <= fold_left Z.max l acc.
Proof.
  revert acc. induction l as [|u l IH]; intros acc Hin; simpl in *; [contradiction|].
  destruct Hin as [->|Hin].
  - pose proof (fold_max_ge l (Z.max acc v)). lia.
  - now apply IH.
Qed.

Lemma fold_max_cases l acc :
  fold_left Z.max l acc = acc \/ In (fold_left Z.max l acc) l.
Proof.
  revert acc. induction l as [|u l IH]; intros acc; simpl; [now left|].
  destruct (IH (Z.max acc u)) as [E|Hin]; [|now right; right].
  rewrite E. destruct (Z.max_spec acc u) as [[_ ->]|[_ ->]]; auto.
Qed.

Lemma fold_min_le l acc : fold_left Z.min l acc <= acc.
Proof.
  revert acc. induction l as [|v l IH]; intros acc; simpl; [lia|].
  specialize (IH (Z.min acc v)). lia.
Qed.

Lemma fold_min_in l acc v : In v l -> fold_left Z.min l acc <= v.
Proof.
  revert acc. induction l as [|u l IH]; intros acc Hin; simpl in *; [contradiction|].
  destruct Hin as [->|Hin].
  - pose proof (fold_min_le l (Z.min acc v)). lia.
  - now apply IH.
Qed.

Lemma fold_min_cases l acc :
  fold_left Z.min l acc = acc \/ In (fold_left Z.min l acc) l.
Proof.
  revert acc. induction l as [|u l IH]; intros acc; simpl; [now left|].
  destruct (IH (Z.min acc u)) as [E|Hin]; [|now right; right].
  rewrite E. destruct (Z.min_spec acc u) as [[_ ->]|[_ ->]]; auto.
Qed.

Lemma fold_min_glb l acc b :
  b <= acc -> (forall v, In v l -> b <= v) -> b <= fold_left Z.min l acc.
Proof.
  intros Hacc Hl. destruct (fold_min_cases l acc) as [->|Hin]; auto.
Qed.

Lemma In_window border src offs y x v :
  In v (window border src offs y x) <->
  exists dy dx, In (dy, dx) offs /\ v = pixel_or border src (y + dy) (x + dx).
Proof.
  unfold window. rewrite in_map_iff. split.
  - intros ([dy dx] & <- & Hin). eauto.
  - intros (dy & dx & Hin & ->). now exists (dy, dx).
Qed.

Lemma rows_dilate1 offs m : rows (dilate1 offs m) = rows m.
Proof. reflexivity. Qed.
Lemma cols_dilate1 offs m : cols (dilate1 offs m) = cols m.
Proof. reflexivity. Qed.
Lemma rows_erode1 offs m : rows (erode1 offs m) = rows m.
Proof. reflexivity. Qed.
Lemma cols_erode1 offs m : cols (erode1 offs m) = cols m.
Proof. reflexivity. Qed.

Lemma rows_iter (f : Mat Z -> Mat Z) n m :
  (forall a, rows (f a) = rows a) -> rows (Nat.iter n f m) = rows m.
Proof. intros H. induction n; simpl; [reflexivity|]. now rewrite H. Qed.

Lemma cols_iter (f : Mat Z -> Mat Z) n m :
  (forall a, cols (f a) = cols a) -> cols (Nat.iter n f m) = cols m.
Proof. intros H. induction n; simpl; [reflexivity|]. now rewrite H. Qed.

Lemma shape_dilate m k n : rows (dilate m k n) = rows m /\ cols (dilate m k n) = cols m.
Proof.
  unfold dilate. split; [apply rows_iter | apply cols_iter]; intros; reflexivity.
Qed.

Lemma shape_erode m k n : rows (erode m k n) = rows m /\ cols (erode m k n) = cols m.
Proof.
  unfold erode. split; [apply rows_iter | apply cols_iter]; intros; reflexivity.
Qed.

Lemma shape_morphologyEx m op k n :
  rows (morphologyEx m op k n) = rows m /\ cols (morphologyEx m op k n) = cols m.
Proof.
  destruct op; simpl.
  - destruct (shape_dilate (erode m k n) k n) as [-> ->]. apply shape_erode.
  - destruct (shape_erode (dilate m k n) k n) as [-> ->]. apply shape_dilate.
  - destruct (shape_erode (dilate m k n) k n) as [-> ->]. apply shape_dilate.
Qed.

(** Values stay in the 8-bit range. *)
Lemma mget_dilate1 offs m y x :
  mget 0 (dilate1 offs m) y x =
  if inside m y x then fold_left Z.max (window 0 m offs y x) 0 else 0.
Proof.
  destruct (inside m y x) eqn:E.
  - unfold dilate1. rewrite mget_build_inside; [reflexivity|]. exact E.
  - apply mget_outside. exact E.
Qed.

Lemma mget_erode1 offs m y x :
  mget 0 (erode1 offs m) y x =
  if inside m y x then fold_left Z.min (window 255 m offs y x) 255 else 0.
Proof.
  destruct (inside m y x) eqn:E.
  - unfold erode1. rewrite mget_build_inside; [reflexivity|]. exact E.
  - apply mget_outside. exact E.
Qed.

Lemma pixel_or_0 m y x : pixel_or 0 m y x = mget 0 m y x.
Proof.
  unfold pixel_or. destruct (inside m y x) eqn:E; [reflexivity|].
  symmetry. now apply mget_outside.
Qed.

Lemma pixel_or_inside b m y x : inside m y x = true -> pixel_or b m y x = mget 0 m y x.
Proof. unfold pixel_or. now intros ->. Qed.

Lemma pixel_or_u8 m y x : u8 m -> 0 <= pixel_or 255 m y x <= 255.
Proof.
  intros H. specialize (H y x). unfold pixel_or.
  destruct (inside m y x); lia.
Qed.

Lemma u8_dilate1 offs m : u8 m -> u8 (dilate1 offs m).
Proof.
  intros H y x. rewrite mget_dilate1. destruct (inside m y x); [|cbv iota; lia].
  split; [apply fold_max_ge|].
  destruct (fold_max_cases (window 0 m offs y x) 0) as [->|Hin]; [lia|].
  apply In_window in Hin. destruct Hin as (dy & dx & _ & ->).
  rewrite pixel_or_0. apply H.
Qed.

Lemma u8_erode1 offs m : u8 m -> u8 (erode1 offs m).
Proof.
  intros H y x. rewrite mget_erode1. destruct (inside m y x); [|cbv iota; lia].
  split; [|apply fold_min_le].
  apply fold_min_glb; [lia|]. intros v Hin.
  apply In_window in Hin. destruct Hin as (dy & dx & _ & ->).
  apply pixel_or_u8. exact H.
Qed.

Lemma u8_iter f n m : (forall a, u8 a -> u8 (f a)) -> u8 m -> u8 (Nat.iter n f m).
Proof. intros Hf Hm. induction n; simpl; auto. Qed.

Lemma u8_dilate m k n : u8 m -> u8 (dilate m k n).
Proof. apply u8_iter. intros a. apply u8_dilate1. Qed.

Lemma u8_erode m k n : u8 m -> u8 (erode m k n).
Proof. apply u8_iter. intros a. apply u8_erode1. Qed.

(** A pixel set by dilation has a foreground pixel under the kernel. *)
Lemma dilate1_fg offs m y x :
  fg (dilate1 offs m) y x ->
  exists dy dx, In (dy, dx) offs /\ fg m (y + dy) (x + dx).
Proof.
  unfold fg. rewrite mget_dilate1. destruct (inside m y x); [|congruence].
  intros Hne.
  destruct (fold_max_cases (window 0 m offs y x) 0) as [E|Hin]; [congruence|].
  apply In_window in Hin. destruct Hin as (dy & dx & Hin & E).
  exists dy, dx. split; [assumption|]. rewrite <- pixel_or_0. now rewrite <- E.
Qed.

(** Erosion with a kernel that contains its anchor only removes pixels. *)
Lemma erode1_fg offs m y x :
  u8 m -> In (0, 0) offs -> fg (erode1 offs m) y x -> fg m y x.
Proof.
  intros Hu H0 Hfg. pose proof (fg_inside _ _ _ Hfg) as Hin.
  rewrite (inside_same _ m) in Hin by reflexivity.
  unfold fg in *. rewrite mget_erode1, Hin in Hfg.
  assert (Hle : fold_left Z.min (window 255 m offs y x) 255 <= mget 0 m y x).
  { apply fold_min_in. apply In_window. exists 0, 0. split; [assumption|].
    rewrite !Z.add_0_r. symmetry. now apply pixel_or_inside. }
  assert (Hge : 0 <= fold_left Z.min (window 255 m offs y x) 255).
  { apply fold_min_glb; [lia|]. intros v Hv. apply In_window in Hv.
    destruct Hv as (dy & dx & _ & ->). now apply pixel_or_u8. }
  lia.
Qed.

(** Dilation with a kernel that contains its anchor only adds pixels. *)
Lemma dilate1_extensive offs m y x :
  u8 m -> In (0, 0) offs -> fg m y x -> fg (dilate1 offs m) y x.
Proof.
  intros Hu H0 Hfg. pose proof (fg_inside _ _ _ Hfg) as Hin.
  unfold fg in *. rewrite mget_dilate1, Hin.
  assert (mget 0 m y x <= fold_left Z.max (window 0 m offs y x) 0).
  { apply fold_max_in. apply In_window. exists 0, 0. split; [assumption|].
    now rewrite !Z.add_0_r, pixel_or_0. }
  specialize (Hu y x). lia.
Qed.

(** ** Thresholding and bitwise operations *)

Lemma binary_u8 m : binary m -> u8 m.
Proof. intros H y x. destruct (H y x); lia. Qed.

Lemma mget_cases {A} (d : A) h w f y x :
  mget d (build h w f) y x = if inside (build h w f) y x then f y x else d.
Proof.
  destruct (inside (build h w f) y x) eqn:E.
  - now apply mget_build_inside.
  - now apply mget_outside.
Qed.

Lemma threshold_binary src :
  binary (snd (threshold_BINARY_OTSU src 255)).
Proof.
  intros y x. unfold threshold_BINARY_OTSU. cbn [snd].
  rewrite mget_cases. destruct (inside _ y x); [|now left].
  destruct (otsu src <? mget 0 src y x); auto.
Qed.

Lemma threshold_shape src v :
  rows (snd (threshold_BINARY_OTSU src v)) = rows src /\
  cols (snd (threshold_BINARY_OTSU src v)) = cols src.
Proof. split; reflexivity. Qed.

Lemma same_shape_iff {A B} (a : Mat A) (b : Mat B) :
  same_shape a b = true <-> rows a = rows b /\ cols a = cols b.
Proof. unfold same_shape. now rewrite andb_true_iff, !Nat.eqb_eq. Qed.

Lemma bitwise_and_Some a b c :
  bitwise_and a b = Some c ->
  rows a = rows b /\ cols a = cols b /\ rows c = rows a /\ cols c = cols a /\
  forall y x, mget 0 c y x = Z.land (mget 0 a y x) (mget 0 b y x).
Proof.
  unfold bitwise_and. destruct (same_shape a b) eqn:E; [|discriminate].
  intros [= <-]. apply same_shape_iff in E. destruct E as [Hr Hc].
  repeat split; try assumption.
  intros y x. rewrite mget_cases. destruct (inside _ y x) eqn:Hin; [reflexivity|].
  rewrite (mget_outside 0 a) by exact Hin. reflexivity.
Qed.

Lemma bitwise_and_total a b :
  rows a = rows b -> cols a = cols b -> exists c, bitwise_and a b = Some c.
Proof.
  intros Hr Hc. unfold bitwise_and.
  replace (same_shape a b) with true by (symmetry; now apply same_shape_iff).
  eauto.
Qed.

Lemma land_nonzero a b : Z.land a b <> 0 -> a <> 0 /\ b <> 0.
Proof.
  intros H. split; intros ->; apply H.
  - apply Z.land_0_l.
  - apply Z.land_0_r.
Qed.

Lemma bitwise_and_fg a b c y x :
  bitwise_and a b = Some c -> fg c y x -> fg a y x /\ fg b y x.
Proof.
  intros H Hfg. apply bitwise_and_Some in H. destruct H as (_ & _ & _ & _ & H).
  unfold fg in *. rewrite H in Hfg. now apply land_nonzero.
Qed.

Lemma land_255_range a b : a = 0 \/ a = 255 -> 0 <= Z.land a b <= 255.
Proof.
  intros [->| ->].
  - rewrite Z.land_0_l. lia.
  - rewrite Z.land_comm. change 255 with (Z.ones 8).
    rewrite Z.land_ones by lia. change (2 ^ 8) with 256. change (Z.ones 8) with 255.
    pose proof (Z.mod_pos_bound b 256). lia.
Qed.

Lemma bitwise_and_u8_l a b c : binary a -> bitwise_and a b = Some c -> u8 c.
Proof.
  intros Ha H y x. apply bitwise_and_Some in H. destruct H as (_ & _ & _ & _ & H).
  rewrite H. apply land_255_range. apply Ha.
Qed.

Lemma bitwise_and_u8_r a b c : binary b -> bitwise_and a b = Some c -> u8 c.
Proof.
  intros Hb H y x. apply bitwise_and_Some in H. destruct H as (_ & _ & _ & _ & H).
  rewrite H, Z.land_comm. apply land_255_range. apply Hb.
Qed.

(** ** The crack mask and the specimen mask (claim C1) *)

Lemma ellipse3_offsets :
  kernel_offsets (getStructuringElement_ELLIPSE (3, 3)%nat) = cross3.
Proof. vm_compute. reflexivity. Qed.

Lemma cross3_step dy dx : In (dy, dx) cross3 -> Z.abs dy + Z.abs dx <= 1.
Proof.
  unfold cross3. simpl. intros H.
  repeat (destruct H as [H|H]; [inversion H; subst; simpl; lia|]). contradiction.
Qed.

Lemma dilate_cross_near n m y x :
  fg (Nat.iter n (dilate1 cross3) m) y x ->
  exists y' x', fg m y' x' /\ dist1 y x y' x' <= Z.of_nat n.
Proof.
  revert y x. induction n as [|n IH]; intros y x Hfg.
  - exists y, x. split; [assumption|]. unfold dist1. lia.
  - cbn [Nat.iter] in Hfg. apply dilate1_fg in Hfg.
    destruct Hfg as (dy & dx & Hin & Hfg). apply cross3_step in Hin.
    apply IH in Hfg. destruct Hfg as (y' & x' & Hfg & Hd).
    exists y', x'. split; [assumption|]. unfold dist1 in *. lia.
Qed.

Lemma erode_cross_shrinks n m y x :
  u8 m -> fg (Nat.iter n (erode1 cross3) m) y x -> fg m y x.
Proof.
  intros Hu. induction n as [|n IH]; intros Hfg; [assumption|].
  cbn [Nat.iter] in Hfg. apply IH. apply erode1_fg in Hfg; auto.
  - apply u8_iter; [|assumption]. intros a. apply u8_erode1.
  - unfold cross3. simpl. auto.
Qed.

Lemma crack_candidates_binary image : binary (crack_candidates image).
Proof.
  unfold crack_candidates.
  pose proof (threshold_binary
    (morphologyEx (CLAHE_apply 2 (8, 8)%nat (cvtColor_BGR2GRAY image)) MORPH_BLACKHAT
       (getStructuringElement_ELLIPSE (11, 11)%nat) 1)) as H.
  destruct (threshold_BINARY_OTSU _ 255) as [t cracks]. exact H.
Qed.

Lemma crack_mask_unfold image specimen :
  crack_mask image specimen =
  match bitwise_and (crack_candidates image) specimen with
  | Some inter =>
      Some (Nat.iter 2 (erode1 cross3)
              (Nat.iter 2 (dilate1 cross3) (Nat.iter 1 (dilate1 cross3) inter)))
  | None => None
  end.
Proof.
  unfold crack_mask.
  destruct (bitwise_and (crack_candidates image) specimen); [|reflexivity].
  cbv zeta. unfold morphologyEx, erode, dilate. now rewrite ellipse3_offsets.
Qed.

(** C1, as amended.  The intersection of the thresholded black-hat
    response with the specimen mask lies inside the specimen mask.  The
    mask that [crack_mask] returns is obtained from it by one dilation and
    a two-fold closing with the 3x3 cross: each of its foreground pixels is
    within city-block distance 3 of a foreground pixel of the intersection,
    hence of the specimen mask. *)
Theorem crack_mask_near_specimen image specimen cracks :
  crack_mask image specimen = Some cracks ->
  exists inter,
    bitwise_and (crack_candidates image) specimen = Some inter /\
    (forall y x, fg inter y x -> fg specimen y x) /\
    (forall y x, fg cracks y x ->
       exists y' x', fg inter y' x' /\ fg specimen y' x' /\ dist1 y x y' x' <= 3).
Proof.
  rewrite crack_mask_unfold.
  destruct (bitwise_and (crack_candidates image) specimen) as [inter|] eqn:Hand;
    [|discriminate].
  intros Heq. exists inter. split; [reflexivity|].
  assert (Hsub : forall y x, fg inter y x -> fg specimen y x).
  { intros y x Hfg. now apply (bitwise_and_fg _ _ _ _ _ Hand) in Hfg. }
  split; [exact Hsub|].
  intros y x Hfg.
  assert (Hu : u8 inter)
    by (eapply bitwise_and_u8_l; [apply crack_candidates_binary | exact Hand]).
  assert (Hc : cracks = Nat.iter 2 (erode1 cross3)
              (Nat.iter 2 (dilate1 cross3) (Nat.iter 1 (dilate1 cross3) inter)))
    by congruence.
  rewrite Hc in Hfg. clear Heq Hc.
  apply erode_cross_shrinks in Hfg.
  2:{ apply u8_iter; [intros a; apply u8_dilate1|].
      apply u8_iter; [intros a; apply u8_dilate1|]. exact Hu. }
  apply dilate_cross_near in Hfg. destruct Hfg as (y1 & x1 & Hfg & Hd1).
  apply dilate_cross_near in Hfg. destruct Hfg as (y2 & x2 & Hfg & Hd2).
  exists y2, x2. split; [assumption|]. split; [now apply Hsub|].
  unfold dist1 in *. lia.
Qed.

Lemma crack_mask_near_specimen_witness :
  exists specimen cracks,
    specimen_mask block_with_crack = Some specimen /\
    crack_mask block_with_crack specimen = Some cracks /\
    exists inter,
      bitwise_and (crack_candidates block_with_crack) specimen = Some inter /\
      (forall y x, fg inter y x -> fg specimen y x) /\
      (forall y x, fg cracks y x ->
         exists y' x', fg inter y' x' /\ fg specimen y' x' /\ dist1 y x y' x' <= 3).
Proof.
  eexists. eexists. split; [vm_compute; reflexivity|].
  split; [vm_compute; reflexivity|].
  apply crack_mask_near_specimen. vm_compute. reflexivity.
Defined.

(** C1 as stated fails: on [block_with_crack] the dilation carries the
    crack across the right edge of the specimen. *)
Lemma crack_mask_leaves_specimen :
  exists specimen cracks,
    specimen_mask block_with_crack = Some specimen /\
    crack_mask block_with_crack specimen = Some cracks /\
    fg cracks 3 8 /\ ~ fg specimen 3 8.
Proof.
  assert (H : match specimen_mask block_with_crack with
              | Some specimen =>
                  match crack_mask block_with_crack specimen with
                  | Some cracks => fgb cracks 3 8 && negb (fgb specimen 3 8)
                  | None => false
                  end
              | None => false
              end = true) by (vm_compute; reflexivity).
  destruct (specimen_mask block_with_crack) as [specimen|] eqn:E1; [|discriminate].
  destruct (crack_mask block_with_crack specimen) as [cracks|] eqn:E2; [|discriminate].
  exists specimen, cracks. split; [reflexivity|]. split; [exact E2|]. split.
  - apply andb_true_iff in H. destruct H as [H _]. unfold fgb in H. unfold fg.
    intros E. rewrite E in H. discriminate.
  - apply andb_true_iff in H. destruct H as [_ H]. unfold fgb in H. unfold fg.
    intros E. destruct (mget 0 specimen 3 8 =? 0) eqn:E0; [|discriminate].
    apply Z.eqb_eq in E0. contradiction.
Qed.

(** ** Connected components *)

Lemma block_key_pos w y x : 0 <= y -> 0 <= x -> 0 < block_key w y x.
Proof.
  intros Hy Hx. unfold block_key.
  pose proof (Z.mod_pos_bound y 2). pose proof (Z.mod_pos_bound x 2).
  assert (0 <= y / 2) by (apply Z.div_pos; lia).
  assert (0 <= x / 2) by (apply Z.div_pos; lia).
  assert (0 <= (Z.of_nat w + 1) / 2) by (apply Z.div_pos; lia).
  nia.
Qed.

Lemma block_key_inj w y x y' x' :
  0 <= y -> 0 <= x < Z.of_nat w -> 0 <= y' -> 0 <= x' < Z.of_nat w ->
  block_key w y x = block_key w y' x' -> y = y' /\ x = x'.
Proof.
  intros Hy Hx Hy' Hx' E. unfold block_key in E.
  set (w2 := (Z.of_nat w + 1) / 2) in *.
  pose proof (Z.div_mod y 2 ltac:(lia)) as Dy.
  pose proof (Z.div_mod x 2 ltac:(lia)) as Dx.
  pose proof (Z.div_mod y' 2 ltac:(lia)) as Dy'.
  pose proof (Z.div_mod x' 2 ltac:(lia)) as Dx'.
  pose proof (Z.mod_pos_bound y 2 ltac:(lia)).
  pose proof (Z.mod_pos_bound x 2 ltac:(lia)).
  pose proof (Z.mod_pos_bound y' 2 ltac:(lia)).
  pose proof (Z.mod_pos_bound x' 2 ltac:(lia)).
  assert (Hw : Z.of_nat w + 1 < 2 * w2 + 2).
  { unfold w2. pose proof (Z.div_mod (Z.of_nat w + 1) 2 ltac:(lia)).
    pose proof (Z.mod_pos_bound (Z.of_nat w + 1) 2 ltac:(lia)). lia. }
  assert (0 <= x / 2 < w2) by lia.
  assert (0 <= x' / 2 < w2) by lia.
  assert (0 <= y / 2) by lia.
  assert (0 <= y' / 2) by lia.
  set (a := y / 2) in *. set (b := x / 2) in *.
  set (a' := y' / 2) in *. set (b' := x' / 2) in *.
  assert (Hq : a * w2 + b = a' * w2 + b') by lia.
  assert (a = a') by nia.
  subst a'. assert (b = b') by lia. lia.
Qed.

Lemma In_neighbours8 dy dx :
  In (dy, dx) neighbours8 <-> Z.max (Z.abs dy) (Z.abs dx) = 1.
Proof.
  unfold neighbours8. simpl. split.
  - intros H. repeat (destruct H as [H|H]; [inversion H; subst; reflexivity|]).
    contradiction.
  - intros H.
    assert (Hy : dy = -1 \/ dy = 0 \/ dy = 1) by lia.
    assert (Hx : dx = -1 \/ dx = 0 \/ dx = 1) by lia.
    destruct Hy as [->|[->| ->]], Hx as [->|[->| ->]]; simpl in H; try lia; tauto.
Qed.

Lemma adj8_offset y x y' x' :
  adj8 (y, x) (y', x') <-> In (y' - y, x' - x) neighbours8.
Proof. unfold adj8. cbn [fst snd]. symmetry. apply In_neighbours8. Qed.

Lemma adj8_sym p q : adj8 p q -> adj8 q p.
Proof. unfold adj8. lia. Qed.

Lemma adj4_sym p q : adj4 p q -> adj4 q p.
Proof. unfold adj4. lia. Qed.

Lemma adj4_adj8 p q : adj4 p q -> adj8 p q.
Proof. unfold adj4, adj8. lia. Qed.

Section Connected.
Variable adj : Z * Z -> Z * Z -> Prop.
Variable m : Mat Z.

Lemma connected_fg_l p q : connected adj m p q -> fg m (fst p) (snd p).
Proof. intros H. destruct H; assumption. Qed.

Lemma connected_fg_r p q : connected adj m p q -> fg m (fst q) (snd q).
Proof. intros H. induction H; assumption. Qed.

Lemma connected_trans p q r :
  connected adj m p q -> connected adj m q r -> connected adj m p r.
Proof.
  intros H. induction H as [p Hp|p q' r' Hp Ha _ IH]; intros Hqr; [assumption|].
  eapply connected_step; eauto.
Qed.

Lemma connected_snoc p q r :
  connected adj m p q -> adj q r -> fg m (fst r) (snd r) -> connected adj m p r.
Proof.
  intros H Ha Hr. eapply connected_trans; [exact H|].
  eapply connected_step; [eapply connected_fg_r; exact H | exact Ha |].
  now apply connected_refl.
Qed.

Hypothesis adj_sym : forall p q, adj p q -> adj q p.

Lemma connected_sym p q : connected adj m p q -> connected adj m q p.
Proof.
  intros H. induction H as [p Hp|p q r Hp Ha Hqr IH].
  - now apply connected_refl.
  - eapply connected_snoc; [exact IH | now apply adj_sym | exact Hp].
Qed.

End Connected.

Lemma connected_mono (adj adj' : Z * Z -> Z * Z -> Prop) m p q :
  (forall a b, adj a b -> adj' a b) -> connected adj m p q -> connected adj' m p q.
Proof.
  intros Hsub H. induction H.
  - now apply connected_refl.
  - eapply connected_step; eauto.
Qed.

(** *** One round of propagation *)

Lemma mget_relax L y x :
  mget 0 (relax L) y x =
  if inside L y x then
    if mget 0 L y x =? 0 then 0
    else fold_left Z.min
           (filter (fun l' => negb (l' =? 0)) (window 0 L neighbours8 y x)) (mget 0 L y x)
  else 0.
Proof.
  unfold relax. rewrite mget_cases.
  replace (inside (build (rows L) (cols L) _) y x) with (inside L y x) by reflexivity.
  reflexivity.
Qed.

Lemma relax_le L y x : mget 0 (relax L) y x <= mget 0 L y x.
Proof.
  rewrite mget_relax. destruct (inside L y x) eqn:E.
  - destruct (mget 0 L y x =? 0) eqn:E0.
    + apply Z.eqb_eq in E0. lia.
    + apply fold_min_le.
  - rewrite (mget_outside 0 L) by exact E. lia.
Qed.

Lemma relax_zero L y x : mget 0 L y x = 0 -> mget 0 (relax L) y x = 0.
Proof.
  intros H. rewrite mget_relax, H. simpl. now destruct (inside L y x).
Qed.

Lemma relax_neighbour L y x dy dx :
  mget 0 L y x <> 0 -> In (dy, dx) neighbours8 -> mget 0 L (y + dy) (x + dx) <> 0 ->
  mget 0 (relax L) y x <= mget 0 L (y + dy) (x + dx).
Proof.
  intros Hl Hin Hn. rewrite mget_relax.
  assert (E : inside L y x = true) by now apply fg_inside.
  rewrite E. apply Z.eqb_neq in Hl. rewrite Hl.
  apply fold_min_in. apply filter_In. split.
  - apply In_window. exists dy, dx. split; [assumption|]. now rewrite pixel_or_0.
  - now apply negb_true_iff, Z.eqb_neq.
Qed.

Lemma relax_cases L y x :
  mget 0 L y x <> 0 ->
  mget 0 (relax L) y x = mget 0 L y x \/
  exists dy dx, In (dy, dx) neighbours8 /\ mget 0 L (y + dy) (x + dx) <> 0 /\
                mget 0 (relax L) y x = mget 0 L (y + dy) (x + dx).
Proof.
  intros Hl. rewrite mget_relax.
  assert (E : inside L y x = true) by now apply fg_inside.
  rewrite E. pose proof Hl as Hl'. apply Z.eqb_neq in Hl'. rewrite Hl'.
  destruct (fold_min_cases
              (filter (fun l' => negb (l' =? 0)) (window 0 L neighbours8 y x))
              (mget 0 L y x)) as [->|Hin]; [now left|].
  right. apply filter_In in Hin. destruct Hin as [Hin Hnz].
  apply In_window in Hin. destruct Hin as (dy & dx & Hin & Hv).
  rewrite pixel_or_0 in Hv. exists dy, dx. split; [assumption|].
  rewrite <- Hv. split; [|reflexivity].
  now apply Z.eqb_neq, negb_true_iff.
Qed.

Lemma canonical_build h w f : canonical (build h w f).
Proof.
  unfold canonical. simpl. apply build_ext. intros y x Hy Hx. now apply mget_build.
Qed.

Lemma canonical_relax L : canonical (relax L).
Proof. apply canonical_build. Qed.

Lemma canonical_init m : canonical (init_labels m).
Proof. apply canonical_build. Qed.

Lemma canonical_eq A B :
  canonical A -> canonical B -> rows A = rows B -> cols A = cols B ->
  (forall y x, inside A y x = true -> mget 0 A y x = mget 0 B y x) -> A = B.
Proof.
  intros HA HB Hr Hc H. rewrite <- HA, <- HB, Hr, Hc.
  apply build_ext. intros y x Hy Hx. apply H. apply inside_iff. lia.
Qed.

(** *** The invariant *)

Lemma labels_inv_init m : labels_inv m (init_labels m).
Proof.
  split; [reflexivity|]. split; [reflexivity|]. intros y x.
  unfold init_labels. rewrite mget_cases.
  replace (inside (build (rows m) (cols m) _) y x) with (inside m y x) by reflexivity.
  split.
  - intros Hn. destruct (inside m y x); [|reflexivity].
    destruct (mget 0 m y x =? 0) eqn:E; [reflexivity|].
    apply Z.eqb_neq in E. contradiction.
  - intros Hfg. rewrite (fg_inside _ _ _ Hfg).
    pose proof Hfg as Hfg'. unfold fg in Hfg'. apply Z.eqb_neq in Hfg'. rewrite Hfg'.
    split; [lia|]. exists y, x. split; [now apply connected_refl | reflexivity].
Qed.

Lemma labels_inv_pos m L y x : labels_inv m L -> fg m y x -> 0 < mget 0 L y x.
Proof.
  intros (_ & _ & H) Hfg. destruct (H y x) as [_ H2].
  destruct (H2 Hfg) as (_ & y' & x' & Hc & ->).
  apply connected_fg_r in Hc. simpl in Hc. apply fg_inside, inside_iff in Hc.
  apply block_key_pos; lia.
Qed.

Lemma labels_inv_nonneg m L y x : labels_inv m L -> 0 <= mget 0 L y x.
Proof.
  intros H. destruct (Z.eq_dec (mget 0 m y x) 0) as [E|E].
  - destruct H as (_ & _ & H). destruct (H y x) as [H1 _].
    rewrite H1; [lia|]. unfold fg. lia.
  - pose proof (labels_inv_pos m L y x H E). lia.
Qed.

Lemma labels_inv_fg m L y x : labels_inv m L -> mget 0 L y x <> 0 -> fg m y x.
Proof.
  intros (_ & _ & H) Hl. destruct (Z.eq_dec (mget 0 m y x) 0) as [E|E]; [|exact E].
  destruct (H y x) as [H1 _]. exfalso. apply Hl, H1. unfold fg. lia.
Qed.

Lemma labels_inv_relax m L : labels_inv m L -> labels_inv m (relax L).
Proof.
  intros HL. pose proof HL as (Hr & Hc & H).
  split; [exact Hr|]. split; [exact Hc|]. intros y x. split.
  - intros Hn. apply relax_zero. now apply H.
  - intros Hfg. destruct (H y x) as [_ H2]. destruct (H2 Hfg) as (Hle & y' & x' & Hcon & E).
    pose proof (relax_le L y x). split; [lia|].
    assert (Hnz : mget 0 L y x <> 0)
      by (pose proof (labels_inv_pos m L y x HL Hfg); lia).
    destruct (relax_cases L y x Hnz) as [->|(dy & dx & Hin & Hq & ->)].
    + exists y', x'. split; assumption.
    + pose proof (labels_inv_fg m L _ _ HL Hq) as Hfq.
      destruct (H (y + dy) (x + dx)) as [_ H3].
      destruct (H3 Hfq) as (_ & y2 & x2 & Hcon2 & E2).
      exists y2, x2. split; [|exact E2].
      eapply connected_step; [exact Hfg | | exact Hcon2].
      apply adj8_offset. now replace (y + dy - y) with dy by lia;
        replace (x + dx - x) with dx by lia.
Qed.

Lemma labels_inv_iter m n : labels_inv m (Nat.iter n relax (init_labels m)).
Proof.
  induction n; simpl; [apply labels_inv_init | now apply labels_inv_relax].
Qed.

(** At a fixed point the label is constant on components and names the
    component. *)
Lemma fixed_adjacent m L y x dy dx :
  labels_inv m L -> relax L = L -> fg m y x -> fg m (y + dy) (x + dx) ->
  In (dy, dx) neighbours8 -> mget 0 L y x <= mget 0 L (y + dy) (x + dx).
Proof.
  intros HL Hfix Hp Hq Hin.
  rewrite <- Hfix at 1. apply relax_neighbour; [| assumption |].
  - pose proof (labels_inv_pos m L _ _ HL Hp). lia.
  - pose proof (labels_inv_pos m L _ _ HL Hq). lia.
Qed.

Lemma fixed_connected m L p q :
  labels_inv m L -> relax L = L -> connected adj8 m p q ->
  mget 0 L (fst p) (snd p) = mget 0 L (fst q) (snd q).
Proof.
  intros HL Hfix H. induction H as [p Hp|p q r Hp Ha Hqr IH]; [reflexivity|].
  rewrite <- IH. destruct p as [y x], q as [y1 x1]. simpl in *.
  pose proof (connected_fg_l _ _ _ _ Hqr) as Hq. simpl in Hq.
  apply adj8_offset in Ha.
  pose proof (fixed_adjacent m L y x (y1 - y) (x1 - x) HL Hfix Hp) as H1.
  replace (y + (y1 - y)) with y1 in H1 by lia.
  replace (x + (x1 - x)) with x1 in H1 by lia.
  specialize (H1 Hq Ha).
  assert (Ha' : In (y - y1, x - x1) neighbours8).
  { apply In_neighbours8. apply In_neighbours8 in Ha. lia. }
  pose proof (fixed_adjacent m L y1 x1 (y - y1) (x - x1) HL Hfix Hq) as H2.
  replace (y1 + (y - y1)) with y in H2 by lia.
  replace (x1 + (x - x1)) with x in H2 by lia.
  specialize (H2 Hp Ha'). lia.
Qed.

Lemma fixed_same_label m L y x y' x' :
  labels_inv m L -> relax L = L -> fg m y x -> fg m y' x' ->
  mget 0 L y x = mget 0 L y' x' -> connected adj8 m (y, x) (y', x').
Proof.
  intros HL Hfix Hp Hq E. pose proof HL as (_ & _ & H).
  destruct (H y x) as [_ H1]. destruct (H1 Hp) as (_ & a & b & Hc1 & E1).
  destruct (H y' x') as [_ H2]. destruct (H2 Hq) as (_ & a' & b' & Hc2 & E2).
  assert (Hab : a = a' /\ b = b').
  { pose proof (connected_fg_r _ _ _ _ Hc1) as F1.
    pose proof (connected_fg_r _ _ _ _ Hc2) as F2. simpl in F1, F2.
    apply fg_inside, inside_iff in F1. apply fg_inside, inside_iff in F2.
    apply (block_key_inj (cols m)); lia. }
  destruct Hab as [<- <-].
  eapply connected_trans; [exact Hc1|].
  apply connected_sym; [apply adj8_sym | exact Hc2].
Qed.

(** *** Termination of the propagation *)

Lemma sum_Z_app a b : sum_Z (a ++ b) = sum_Z a + sum_Z b.
Proof. induction a; simpl; lia. Qed.

Lemma sum_map_le {A} (f g : A -> Z) l :
  (forall a, In a l -> f a <= g a) -> sum_Z (map f l) <= sum_Z (map g l).
Proof.
  induction l as [|a l IH]; intros H; simpl; [lia|].
  pose proof (H a (or_introl eq_refl)).
  assert (sum_Z (map f l) <= sum_Z (map g l)) by (apply IH; intros; apply H; now right).
  lia.
Qed.

Lemma sum_map_eq {A} (f g : A -> Z) l :
  (forall a, In a l -> f a <= g a) -> sum_Z (map g l) <= sum_Z (map f l) ->
  forall a, In a l -> f a = g a.
Proof.
  induction l as [|b l IH]; intros H Hs a Ha; simpl in *; [contradiction|].
  pose proof (H b (or_introl eq_refl)).
  assert (sum_Z (map f l) <= sum_Z (map g l))
    by (apply sum_map_le; intros; apply H; now right).
  destruct Ha as [->|Ha]; [lia|].
  apply IH; auto. lia.
Qed.

Lemma sum_map_nonneg {A} (f : A -> Z) l :
  (forall a, In a l -> 0 <= f a) -> 0 <= sum_Z (map f l).
Proof.
  induction l as [|a l IH]; intros H; simpl; [lia|].
  pose proof (H a (or_introl eq_refl)).
  assert (0 <= sum_Z (map f l)) by (apply IH; intros; apply H; now right). lia.
Qed.

Lemma concat_build h w (f : Z -> Z -> Z) :
  List.concat (data (build h w f)) =
  map (fun '(y, x) => f y x) (coords (build h w f)).
Proof.
  unfold coords. simpl. induction (zrange h) as [|y l IH]; simpl; [reflexivity|].
  rewrite map_app, IH. f_equal. now rewrite map_map.
Qed.

Lemma total_build h w f :
  total (build h w f) = sum_Z (List.concat (data (build h w f))).
Proof.
  rewrite concat_build. unfold total. f_equal.
  apply map_ext_in. intros [y x] Hin. apply In_coords in Hin.
  now rewrite mget_build_inside.
Qed.

Lemma total_relax_le L : total (relax L) <= total L.
Proof.
  unfold total. rewrite (coords_same (relax L) L) by reflexivity.
  apply sum_map_le. intros [y x] _. apply relax_le.
Qed.

Lemma relax_progress L :
  canonical L -> relax L = L \/ total (relax L) + 1 <= total L.
Proof.
  intros HL. pose proof (total_relax_le L) as Hle.
  destruct (Z.eq_dec (total (relax L)) (total L)) as [E|E]; [left | right; lia].
  apply canonical_eq; try reflexivity; [apply canonical_relax | exact HL |].
  intros y x Hin.
  unfold total in E. rewrite (coords_same (relax L) L) in E by reflexivity.
  apply (sum_map_eq (fun '(y, x) => mget 0 (relax L) y x)
                    (fun '(y, x) => mget 0 L y x) (coords L)
                    ltac:(intros [a b] _; apply relax_le)
                    ltac:(lia) (y, x)).
  apply In_coords. exact Hin.
Qed.

Lemma canonical_iter n L : canonical L -> canonical (Nat.iter n relax L).
Proof. intros H. destruct n; simpl; [exact H | apply canonical_relax]. Qed.

Lemma iter_fixed n L : relax L = L -> Nat.iter n relax L = L.
Proof. intros H. induction n; simpl; [reflexivity|]. now rewrite IHn. Qed.

Lemma iter_add (n k : nat) L :
  Nat.iter (n + k) relax L = Nat.iter n relax (Nat.iter k relax L).
Proof. induction n; simpl; [reflexivity|]. now rewrite IHn. Qed.

Lemma iter_shift n L : Nat.iter n relax (relax L) = relax (Nat.iter n relax L).
Proof. induction n; simpl; [reflexivity|]. now rewrite IHn. Qed.

Lemma total_iter_le n L : total (Nat.iter n relax L) <= total L.
Proof.
  induction n; simpl; [lia|]. pose proof (total_relax_le (Nat.iter n relax L)). lia.
Qed.

(** If [n >= 1] rounds bring [L] back to itself, [L] is a fixed point. *)
Lemma iter_cycle_fixed n L :
  canonical L -> Nat.iter (S n) relax L = L -> relax L = L.
Proof.
  intros HL Hc. destruct (relax_progress L HL) as [E|Hlt]; [exact E|].
  exfalso. rewrite <- Nat.add_1_r, iter_add in Hc. simpl in Hc.
  pose proof (total_iter_le n (relax L)) as H. rewrite Hc in H. lia.
Qed.

Lemma iter_progress m n :
  let X := fun k => Nat.iter k relax (init_labels m) in
  X (S n) = X n \/ total (X (S n)) + Z.of_nat (S n) <= total (X 0%nat).
Proof.
  intros X. induction n as [|n IH].
  - destruct (relax_progress (X 0%nat) (canonical_init m)) as [E|E]; [now left|].
    right. simpl in *. lia.
  - destruct IH as [E|Hlt].
    + left. unfold X in *. simpl in *. now rewrite E at 1.
    + destruct (relax_progress (X (S n))) as [E|E].
      * apply canonical_relax.
      * now left.
      * right. unfold X in *. rewrite Nat2Z.inj_succ. simpl Nat.iter in *. lia.
Qed.

Lemma total_inv_nonneg m L : labels_inv m L -> 0 <= total L.
Proof.
  intros H. apply sum_map_nonneg. intros [y x] _. now apply (labels_inv_nonneg m).
Qed.

Lemma iter_reaches_fixed m n :
  total (init_labels m) < Z.of_nat n ->
  relax (Nat.iter n relax (init_labels m)) = Nat.iter n relax (init_labels m).
Proof.
  intros Hn. destruct n as [|n]; [pose proof (total_inv_nonneg m _ (labels_inv_init m)); lia|].
  destruct (iter_progress m n) as [E|Hlt].
  - simpl Nat.iter in *. now rewrite E at 1.
  - exfalso. pose proof (total_inv_nonneg m _ (labels_inv_iter m (S n))).
    simpl Nat.iter in *. lia.
Qed.

Lemma row_eqb_eq a b : row_eqb a b = true -> a = b.
Proof.
  unfold row_eqb. rewrite andb_true_iff, Nat.eqb_eq. intros [Hlen Hall].
  revert b Hlen Hall. induction a as [|u a IH]; intros [|v b] Hlen Hall;
    simpl in *; try discriminate; [reflexivity|].
  apply andb_true_iff in Hall. destruct Hall as [Huv Hall].
  apply Z.eqb_eq in Huv. subst. f_equal. apply IH; [lia | assumption].
Qed.

Lemma mat_eqb_eq a b : mat_eqb a b = true -> a = b.
Proof.
  unfold mat_eqb. rewrite !andb_true_iff, !Nat.eqb_eq.
  intros [[[Hr Hc] Hlen] Hall].
  destruct a as [ra ca da], b as [rb cb db]. simpl in *. subst. f_equal.
  revert db Hlen Hall. induction da as [|u a IH]; intros [|v b] Hlen Hall;
    simpl in *; try discriminate; [reflexivity|].
  apply andb_true_iff in Hall. destruct Hall as [Huv Hall].
  apply row_eqb_eq in Huv. subst. f_equal. apply IH; [lia | assumption].
Qed.

Lemma settle_spec k L :
  canonical L ->
  (exists n, settle k L = Nat.iter n relax L /\ relax (settle k L) = settle k L) \/
  settle k L = Nat.iter (2 ^ k) relax L.
Proof.
  revert L. induction k as [|k IH]; intros L HL; [now right|].
  cbn [settle].
  destruct (IH L HL) as [(n & En & Efix)|Epow].
  - left. destruct (mat_eqb (settle k L) L) eqn:Eq.
    + exists n. split; assumption.
    + assert (Hc1 : canonical (settle k L)) by (rewrite <- Efix; apply canonical_relax).
      destruct (IH (settle k L) Hc1) as [(n' & En' & Efix')|Epow'].
      * exists (n' + n)%nat. split; [|exact Efix'].
        now rewrite iter_add, <- En.
      * exists n. split; [|now rewrite Epow', iter_fixed by exact Efix].
        now rewrite Epow', iter_fixed.
  - destruct (mat_eqb (settle k L) L) eqn:Eq.
    + left. apply mat_eqb_eq in Eq. exists (2 ^ k)%nat. split; [exact Epow|].
      rewrite Eq. rewrite Epow in Eq.
      assert (Hpos : exists j, (2 ^ k = S j)%nat).
      { pose proof (Nat.pow_nonzero 2 k ltac:(lia)).
        destruct (2 ^ k)%nat; [lia | eauto]. }
      destruct Hpos as (j & Hj). rewrite Hj in Eq.
      now apply (iter_cycle_fixed j).
    + assert (Hc1 : canonical (settle k L)).
      { rewrite Epow. apply canonical_iter. exact HL. }
      destruct (IH (settle k L) Hc1) as [(n' & En' & Efix')|Epow'].
      * left. exists (n' + 2 ^ k)%nat. split; [|exact Efix'].
        now rewrite iter_add, <- Epow.
      * right. rewrite Epow', Epow, <- iter_add. f_equal. simpl. lia.
Qed.

(** The propagation ends in a fixed point that satisfies the invariant. *)
Lemma propagate_spec m :
  labels_inv m (propagate m) /\ relax (propagate m) = propagate m.
Proof.
  unfold propagate.
  set (k := Z.to_nat (Z.log2_up (sum_Z (List.concat (data (init_labels m))) + 2))).
  destruct (settle_spec k (init_labels m) (canonical_init m))
    as [(n & En & Efix)|Epow].
  - split; [|exact Efix]. rewrite En. apply labels_inv_iter.
  - rewrite Epow. split; [apply labels_inv_iter|].
    apply iter_reaches_fixed.
    unfold init_labels at 1. rewrite total_build. fold (init_labels m).
    set (s := sum_Z (List.concat (data (init_labels m)))) in *.
    assert (Hs : 0 <= s).
    { unfold s. unfold init_labels. rewrite <- total_build.
      apply (total_inv_nonneg m). apply labels_inv_init. }
    rewrite Nat2Z.inj_pow. unfold k. rewrite Z2Nat.id by apply Z.log2_up_nonneg.
    pose proof (Z.log2_up_spec (s + 2) ltac:(lia)). simpl Z.of_nat. lia.
Qed.

(** *** Numbering the components *)

Lemma In_insert_sorted x v l : In x (insert_sorted v l) <-> x = v \/ In x l.
Proof.
  induction l as [|u l IH]; simpl; [intuition|].
  destruct (v <=? u); simpl; rewrite ?IH; intuition.
Qed.

Lemma In_sort_keys x l : In x (sort_keys l) <-> In x l.
Proof.
  induction l as [|u l IH]; simpl; [tauto|].
  rewrite In_insert_sorted, IH. intuition.
Qed.

Lemma NoDup_insert_sorted v l : ~ In v l -> NoDup l -> NoDup (insert_sorted v l).
Proof.
  induction l as [|u l IH]; intros Hv Hl; simpl.
  - constructor; [tauto | constructor].
  - destruct (v <=? u); [now constructor|].
    inversion Hl as [|? ? Hu Hl']; subst. constructor.
    + rewrite In_insert_sorted. simpl in Hv. intuition.
    + apply IH; [simpl in Hv; tauto | assumption].
Qed.

Lemma NoDup_sort_keys l : NoDup l -> NoDup (sort_keys l).
Proof.
  induction l as [|u l IH]; intros H; simpl; [constructor|].
  inversion H; subst. apply NoDup_insert_sorted; [|now apply IH].
  now rewrite In_sort_keys.
Qed.

Lemma NoDup_map_in {A B} (f : A -> B) l :
  NoDup l -> (forall a b, In a l -> In b l -> f a = f b -> a = b) -> NoDup (map f l).
Proof.
  induction l as [|a l IH]; intros Hnd Hinj; simpl; [constructor|].
  inversion Hnd as [|? ? Ha Hl]; subst. constructor.
  - intros Hin. apply in_map_iff in Hin. destruct Hin as (b & E & Hb).
    assert (b = a) by (apply Hinj; simpl; auto). subst. contradiction.
  - apply IH; [assumption|]. intros; apply Hinj; simpl; auto.
Qed.

Lemma index_of_range v l : In v l -> 0 <= index_of v l < Z.of_nat (length l).
Proof.
  induction l as [|u l IH]; intros Hin; [contradiction|].
  cbn [index_of length]. rewrite Nat2Z.inj_succ.
  destruct (u =? v) eqn:E; [lia|].
  apply Z.eqb_neq in E. destruct Hin as [->|Hin]; [contradiction|].
  specialize (IH Hin). lia.
Qed.

Lemma index_of_nonneg v l : 0 <= index_of v l.
Proof. induction l as [|u l IH]; cbn [index_of]; [lia|]. destruct (u =? v); lia. Qed.

Lemma nth_index_of v l d : In v l -> nth (Z.to_nat (index_of v l)) l d = v.
Proof.
  induction l as [|u l IH]; intros Hin; [contradiction|].
  cbn [index_of]. destruct (u =? v) eqn:E.
  - apply Z.eqb_eq in E. now subst.
  - apply Z.eqb_neq in E. destruct Hin as [->|Hin]; [contradiction|].
    pose proof (index_of_nonneg v l).
    replace (Z.to_nat (1 + index_of v l)) with (S (Z.to_nat (index_of v l))) by lia.
    cbn [nth]. now apply IH.
Qed.

Lemma index_of_nth i l d :
  NoDup l -> (i < length l)%nat -> index_of (nth i l d) l = Z.of_nat i.
Proof.
  revert i. induction l as [|u l IH]; intros i Hnd Hi; cbn [length] in Hi; [lia|].
  inversion Hnd as [|? ? Hu Hl]; subst. destruct i as [|i]; cbn [nth index_of].
  - now rewrite Z.eqb_refl.
  - destruct (u =? nth i l d) eqn:E.
    + apply Z.eqb_eq in E. exfalso. apply Hu. rewrite E. apply nth_In. lia.
    + rewrite IH by (assumption || lia). lia.
Qed.

Lemma index_of_inj a b l :
  In a l -> In b l -> index_of a l = index_of b l -> a = b.
Proof.
  intros Ha Hb E.
  rewrite <- (nth_index_of a l 0 Ha), <- (nth_index_of b l 0 Hb). now rewrite E.
Qed.

Section Labelling.
Variable m : Mat Z.

Lemma L_inv : labels_inv m (propagate m).
Proof. apply propagate_spec. Qed.

Lemma L_fixed : relax (propagate m) = (propagate m).
Proof. apply propagate_spec. Qed.

Lemma roots_In v :
  In v (roots m (propagate m)) <->
  exists y x, fg m y x /\ mget 0 (propagate m) y x = v /\ v = block_key (cols m) y x.
Proof.
  unfold roots. rewrite In_sort_keys, in_map_iff. split.
  - intros ([y x] & E & Hin). apply filter_In in Hin. destruct Hin as [Hin Hf].
    apply andb_true_iff in Hf. destruct Hf as [Hnz Hk].
    apply negb_true_iff, Z.eqb_neq in Hnz. apply Z.eqb_eq in Hk.
    exists y, x. split; [now apply (labels_inv_fg m (propagate m)), Hnz; apply L_inv|].
    split; [exact E | congruence].
  - intros (y & x & Hfg & E & Hk). exists (y, x). split; [exact E|].
    apply filter_In. split; [apply In_coords; now apply fg_inside|].
    apply andb_true_iff. split.
    + apply negb_true_iff, Z.eqb_neq. pose proof (labels_inv_pos m (propagate m) y x L_inv Hfg). lia.
    + apply Z.eqb_eq. congruence.
Qed.

Lemma label_in_roots y x : fg m y x -> In (mget 0 (propagate m) y x) (roots m (propagate m)).
Proof.
  intros Hfg. pose proof L_inv as (_ & _ & H).
  destruct (H y x) as [_ H2]. destruct (H2 Hfg) as (_ & y' & x' & Hc & E).
  apply roots_In. exists y', x'.
  pose proof (fixed_connected m (propagate m) _ _ L_inv L_fixed Hc) as Heq. simpl in Heq.
  split; [apply (connected_fg_r _ _ _ _ Hc)|]. split; congruence.
Qed.

Lemma roots_NoDup : NoDup (roots m (propagate m)).
Proof.
  unfold roots. apply NoDup_sort_keys. apply NoDup_map_in.
  - apply NoDup_filter. apply NoDup_coords.
  - intros [y x] [y' x'] Ha Hb E.
    apply filter_In in Ha, Hb. destruct Ha as [Ha Hfa], Hb as [Hb Hfb].
    apply andb_true_iff in Hfa, Hfb. destruct Hfa as [_ Hka], Hfb as [_ Hkb].
    apply Z.eqb_eq in Hka, Hkb. apply In_coords, inside_iff in Ha, Hb.
    assert (y = y' /\ x = x') by (apply (block_key_inj (cols m)); lia || congruence).
    f_equal; tauto.
Qed.

Lemma cc_unfold :
  connectedComponentsWithStats m =
  (1 + Z.of_nat (length (roots m (propagate m))),
   build (rows m) (cols m) (fun y x =>
     let l := mget 0 (propagate m) y x in if l =? 0 then 0 else 1 + index_of l (roots m (propagate m))),
   map (fun l => count_eq l (List.concat (data
     (build (rows m) (cols m) (fun y x =>
        let l := mget 0 (propagate m) y x in if l =? 0 then 0 else 1 + index_of l (roots m (propagate m)))))))
     (zrange (Z.to_nat (1 + Z.of_nat (length (roots m (propagate m))))))).
Proof. reflexivity. Qed.

Lemma cc_labels_get y x :
  mget 0 (cc_labels m) y x =
  if mget 0 (propagate m) y x =? 0 then 0 else 1 + index_of (mget 0 (propagate m) y x) (roots m (propagate m)).
Proof.
  unfold cc_labels. rewrite cc_unfold. cbn [fst snd].
  rewrite mget_cases.
  replace (inside (build (rows m) (cols m) _) y x) with (inside (propagate m) y x).
  2:{ pose proof L_inv as (Hr & Hc & _). apply inside_same; simpl; congruence. }
  destruct (inside (propagate m) y x) eqn:E; [reflexivity|].
  now rewrite (mget_outside 0 (propagate m)) by exact E.
Qed.

Lemma cc_n_labels_eq : cc_n_labels m = 1 + Z.of_nat (length (roots m (propagate m))).
Proof. reflexivity. Qed.

End Labelling.

(** The contract of [cv2.connectedComponentsWithStats] with 8-way
    connectivity. *)
Lemma cc_shape m : rows (cc_labels m) = rows m /\ cols (cc_labels m) = cols m.
Proof. split; reflexivity. Qed.

Lemma cc_background m y x : mget 0 (cc_labels m) y x = 0 <-> ~ fg m y x.
Proof.
  rewrite cc_labels_get. split.
  - intros H Hfg. pose proof (labels_inv_pos m _ y x (L_inv m) Hfg) as Hp.
    destruct (mget 0 (propagate m) y x =? 0) eqn:E; [apply Z.eqb_eq in E; lia|].
    pose proof (index_of_nonneg (mget 0 (propagate m) y x) (roots m (propagate m))). lia.
  - intros Hn. destruct (L_inv m) as (_ & _ & H). destruct (H y x) as [H1 _].
    now rewrite (H1 Hn).
Qed.

Lemma cc_label_fg m y x :
  fg m y x ->
  mget 0 (cc_labels m) y x =
  1 + index_of (mget 0 (propagate m) y x) (roots m (propagate m)).
Proof.
  intros Hfg. rewrite cc_labels_get.
  pose proof (labels_inv_pos m _ y x (L_inv m) Hfg) as Hp.
  destruct (mget 0 (propagate m) y x =? 0) eqn:E; [apply Z.eqb_eq in E; lia|reflexivity].
Qed.

Lemma cc_label_range m y x :
  fg m y x -> 1 <= mget 0 (cc_labels m) y x < cc_n_labels m.
Proof.
  intros Hfg. rewrite cc_label_fg by assumption. rewrite cc_n_labels_eq.
  pose proof (index_of_range _ _ (label_in_roots m y x Hfg)). lia.
Qed.

Lemma cc_n_labels_pos m : 1 <= cc_n_labels m.
Proof. rewrite cc_n_labels_eq. lia. Qed.

Lemma cc_same_label m y x y' x' :
  fg m y x -> fg m y' x' ->
  (mget 0 (cc_labels m) y x = mget 0 (cc_labels m) y' x' <->
   connected adj8 m (y, x) (y', x')).
Proof.
  intros Hp Hq. rewrite !cc_label_fg by assumption. split.
  - intros E. apply (fixed_same_label m (propagate m)); auto using L_inv, L_fixed.
    apply (index_of_inj _ _ (roots m (propagate m))); auto using label_in_roots. lia.
  - intros Hc. pose proof (fixed_connected m _ _ _ (L_inv m) (L_fixed m) Hc) as E.
    simpl in E. now rewrite E.
Qed.

Lemma cc_label_used m l :
  1 <= l < cc_n_labels m -> exists y x, fg m y x /\ mget 0 (cc_labels m) y x = l.
Proof.
  rewrite cc_n_labels_eq. intros Hl.
  set (rs := roots m (propagate m)) in *.
  assert (Hi : (Z.to_nat (l - 1) < length rs)%nat) by lia.
  pose proof (nth_In rs 0 Hi) as Hin. apply roots_In in Hin.
  destruct Hin as (y & x & Hfg & E & _). exists y, x. split; [assumption|].
  rewrite cc_label_fg by assumption. fold rs. rewrite E.
  rewrite index_of_nth by (apply roots_NoDup || assumption). lia.
Qed.

(** [stats[l, CC_STAT_AREA]] is the number of cells labelled [l]. *)
Lemma count_eq_acc v l acc :
  fold_left (fun a u => if u =? v then a + 1 else a) l acc =
  acc + Z.of_nat (length (filter (fun u => u =? v) l)).
Proof.
  revert acc. induction l as [|u l IH]; intros acc; simpl; [lia|].
  rewrite IH. destruct (u =? v); simpl length; lia.
Qed.

Lemma count_eq_filter v l :
  count_eq v l = Z.of_nat (length (filter (fun u => u =? v) l)).
Proof. unfold count_eq. now rewrite count_eq_acc. Qed.

Lemma filter_map_length {A B} (f : A -> B) (p : B -> bool) l :
  length (filter p (map f l)) = length (filter (fun a => p (f a)) l).
Proof.
  induction l as [|a l IH]; simpl; [reflexivity|].
  destruct (p (f a)); simpl; now rewrite IH.
Qed.

Lemma area_of_build h w f v :
  count_eq v (List.concat (data (build h w f))) = area_of (build h w f) v.
Proof.
  rewrite count_eq_filter, concat_build, filter_map_length. unfold area_of.
  f_equal. f_equal. apply filter_ext_in. intros [y x] Hin.
  apply In_coords in Hin. now rewrite mget_build_inside.
Qed.

Lemma cc_areas_length m : Z.of_nat (length (cc_areas m)) = cc_n_labels m.
Proof.
  unfold cc_areas. rewrite cc_unfold. cbn [snd]. rewrite length_map, length_zrange.
  rewrite cc_n_labels_eq. lia.
Qed.

Lemma cc_areas_nth m l :
  0 <= l < cc_n_labels m ->
  nth (Z.to_nat l) (cc_areas m) 0 = area_of (cc_labels m) l.
Proof.
  intros Hl. unfold cc_areas, cc_labels. rewrite cc_unfold. cbn [fst snd].
  rewrite cc_n_labels_eq in Hl.
  rewrite (nth_indep _ 0 (count_eq 0 (List.concat (data
     (build (rows m) (cols m) (fun y x =>
        let l := mget 0 (propagate m) y x in
        if l =? 0 then 0 else 1 + index_of l (roots m (propagate m)))))))).
  2:{ rewrite length_map, length_zrange. lia. }
  rewrite (map_nth (fun l0 => count_eq l0 _) (zrange _) 0).
  rewrite nth_zrange by lia. rewrite Z2Nat.id by lia. apply area_of_build.
Qed.

(** C3, as amended.  The labelling used by [specimen_mask] and by
    [count_particles] (the same call with default arguments) gives two
    foreground cells the same label exactly when a path of foreground cells
    joins them whose consecutive cells share an edge or a corner
    (8-neighbourhood). *)
Theorem labelling_is_8_connected m y x y' x' :
  fg m y x -> fg m y' x' ->
  (mget 0 (cc_labels m) y x = mget 0 (cc_labels m) y' x' <->
   connected adj8 m (y, x) (y', x')).
Proof.
  intros Hp Hq. rewrite !cc_label_fg by assumption. split.
  - intros E. apply (fixed_same_label m (propagate m)); auto using L_inv, L_fixed.
    apply (index_of_inj _ _ (roots m (propagate m))); auto using label_in_roots. lia.
  - intros Hc. pose proof (fixed_connected m _ _ _ (L_inv m) (L_fixed m) Hc) as E.
    simpl in E. now rewrite E.
Qed.

Lemma labelling_is_8_connected_witness :
  fg diagonal2 0 0 /\ fg diagonal2 1 1 /\
  (mget 0 (cc_labels diagonal2) 0 0 = mget 0 (cc_labels diagonal2) 1 1 <->
   connected adj8 diagonal2 (0, 0) (1, 1)).
Proof.
  assert (H0 : fg diagonal2 0 0) by (vm_compute; discriminate).
  assert (H1 : fg diagonal2 1 1) by (vm_compute; discriminate).
  split; [exact H0|]. split; [exact H1|].
  exact (labelling_is_8_connected diagonal2 0 0 1 1 H0 H1).
Defined.

(** C3 as stated fails: the two cells of [diagonal2] share only a corner,
    no path through edge-sharing cells joins them, and they get the same
    label. *)
Lemma diagonal_cells_share_a_label :
  fg diagonal2 0 0 /\ fg diagonal2 1 1 /\
  mget 0 (cc_labels diagonal2) 0 0 = mget 0 (cc_labels diagonal2) 1 1 /\
  ~ connected adj4 diagonal2 (0, 0) (1, 1).
Proof.
  split; [vm_compute; discriminate|]. split; [vm_compute; discriminate|].
  split; [vm_compute; reflexivity|].
  intros H. inversion H as [p Hp|p q r Hp Ha Hqr]; subst.
  apply connected_fg_l in Hqr. destruct q as [qy qx]. unfold adj4 in Ha. simpl in *.
  assert (Hq : (qy = 0 /\ qx = 1) \/ (qy = 1 /\ qx = 0) \/
               (qy = -1 /\ qx = 0) \/ (qy = 0 /\ qx = -1)) by lia.
  destruct Hq as [[-> ->]|[[-> ->]|[[-> ->]|[-> ->]]]]; apply Hqr; vm_compute; reflexivity.
Qed.

(** ** The specimen mask *)

Lemma argmax_from_range l bi bv i :
  0 <= bi < i -> 0 <= np.argmax_from bi bv i l < i + Z.of_nat (length l).
Proof.
  revert bi bv i. induction l as [|v l IH]; intros bi bv i Hb; cbn [np.argmax_from length].
  - lia.
  - rewrite Nat2Z.inj_succ. destruct (bv <? v).
    + specialize (IH i v (i + 1) ltac:(lia)). lia.
    + specialize (IH bi bv (i + 1) ltac:(lia)). lia.
Qed.

Lemma argmax_range l i : np.argmax l = Some i -> 0 <= i < Z.of_nat (length l).
Proof.
  destruct l as [|v l]; [discriminate|]. cbn [np.argmax length]. intros [= <-].
  rewrite Nat2Z.inj_succ. pose proof (argmax_from_range l 0 v 1 ltac:(lia)). lia.
Qed.

Lemma argmax_total l : l <> [] -> exists i, np.argmax l = Some i.
Proof. destruct l; [congruence | simpl; eauto]. Qed.

Lemma specimen_mask_unfold image :
  specimen_mask image =
  let th := specimen_threshold image in
  if cc_n_labels th <=? 1 then Some th
  else match np.argmax (skipn 1 (cc_areas th)) with
       | None => None
       | Some i =>
           Some (morphologyEx (component_mask th (1 + i)) MORPH_CLOSE
                   (getStructuringElement_ELLIPSE (9, 9)%nat) 2)
       end.
Proof.
  unfold specimen_mask, specimen_threshold, component_mask, cc_n_labels, cc_areas, cc_labels.
  destruct (threshold_BINARY_OTSU _ 255) as [t th]. cbn [snd].
  destruct (connectedComponentsWithStats th) as [[n labels] stats]. reflexivity.
Qed.

Lemma specimen_threshold_binary image : binary (specimen_threshold image).
Proof. apply threshold_binary. Qed.

Lemma specimen_threshold_shape image :
  rows (specimen_threshold image) = rows image /\
  cols (specimen_threshold image) = cols image.
Proof. split; reflexivity. Qed.

Lemma skipn1_areas_length th :
  Z.of_nat (length (skipn 1 (cc_areas th))) = cc_n_labels th - 1.
Proof.
  rewrite length_skipn. pose proof (cc_areas_length th). pose proof (cc_n_labels_pos th). lia.
Qed.

(** The mask of one component. *)
Lemma component_mask_get th l y x :
  mget 0 (component_mask th l) y x =
  if inside th y x then (if mget 0 (cc_labels th) y x =? l then 255 else 0) else 0.
Proof.
  unfold component_mask, np.where_eq. rewrite mget_cases.
  replace (inside (build _ _ _) y x) with (inside th y x) by reflexivity.
  reflexivity.
Qed.

Lemma component_mask_binary th l : binary (component_mask th l).
Proof.
  intros y x. rewrite component_mask_get.
  destruct (inside th y x); [|now left].
  destruct (_ =? l); auto.
Qed.

Lemma component_mask_fg th l y x :
  1 <= l ->
  (fg (component_mask th l) y x <-> fg th y x /\ mget 0 (cc_labels th) y x = l).
Proof.
  intros Hl. unfold fg at 1. rewrite component_mask_get. split.
  - intros H. destruct (inside th y x) eqn:E; [|congruence].
    destruct (mget 0 (cc_labels th) y x =? l) eqn:El; [|congruence].
    apply Z.eqb_eq in El. split; [|exact El].
    destruct (Z.eq_dec (mget 0 th y x) 0) as [E0|E0]; [|exact E0].
    assert (Hb : mget 0 (cc_labels th) y x = 0) by (apply cc_background; unfold fg; lia).
    lia.
  - intros [Hfg El]. rewrite (fg_inside _ _ _ Hfg).
    apply Z.eqb_eq in El. rewrite El. discriminate.
Qed.

Lemma connected_in_component th l p q :
  1 <= l -> connected adj8 th p q -> mget 0 (cc_labels th) (fst p) (snd p) = l ->
  connected adj8 (component_mask th l) p q.
Proof.
  intros Hl H. induction H as [p Hp|p q r Hp Ha Hqr IH]; intros El.
  - apply connected_refl. apply component_mask_fg; auto.
  - eapply connected_step; [apply component_mask_fg; auto | exact Ha |].
    apply IH. rewrite <- El. symmetry.
    destruct p as [py px], q as [qy qx]. simpl in *.
    apply cc_same_label; [assumption | exact (connected_fg_l _ _ _ _ Hqr) |].
    eapply connected_step; [exact Hp | exact Ha |].
    apply connected_refl. exact (connected_fg_l _ _ _ _ Hqr).
Qed.

(** A labelled component, taken alone, is one connected region. *)
Lemma component_mask_one_region th l :
  1 <= l < cc_n_labels th -> cc_n_labels (component_mask th l) = 2.
Proof.
  intros Hl. set (c := component_mask th l).
  assert (Hall : forall y x y' x', fg c y x -> fg c y' x' ->
                 mget 0 (cc_labels c) y x = mget 0 (cc_labels c) y' x').
  { intros y x y' x' Hp Hq. apply cc_same_label; try assumption.
    apply component_mask_fg in Hp; [|lia]. apply component_mask_fg in Hq; [|lia].
    destruct Hp as [Hp Ep], Hq as [Hq Eq].
    apply (connected_in_component th l (y, x) (y', x')); [lia | | exact Ep].
    apply cc_same_label; congruence. }
  destruct (cc_label_used th l Hl) as (y & x & Hfg & El).
  assert (Hc : fg c y x) by (apply component_mask_fg; [lia | tauto]).
  pose proof (cc_label_range c y x Hc) as Hr.
  destruct (Z_lt_le_dec 2 (cc_n_labels c)) as [Hbig|]; [|lia].
  exfalso.
  destruct (cc_label_used c 1 ltac:(lia)) as (y1 & x1 & F1 & E1).
  destruct (cc_label_used c 2 ltac:(lia)) as (y2 & x2 & F2 & E2).
  pose proof (Hall y1 x1 y2 x2 F1 F2). lia.
Qed.

(** *** Closing only adds pixels *)

Lemma symmetric_offsets_spec offs dy dx :
  symmetric_offsets offs = true -> In (dy, dx) offs -> In (- dy, - dx) offs.
Proof.
  unfold symmetric_offsets. rewrite forallb_forall. intros H Hin.
  specialize (H _ Hin). cbn beta iota in H. apply existsb_exists in H.
  destruct H as ([ey ex] & He & Heq). apply andb_true_iff in Heq.
  destruct Heq as [E1 E2]. apply Z.eqb_eq in E1, E2. now subst.
Qed.

Lemma dilate1_intro offs m y x dy dx :
  u8 m -> inside m y x = true -> In (dy, dx) offs -> fg m (y + dy) (x + dx) ->
  fg (dilate1 offs m) y x.
Proof.
  intros Hu Hin Ho Hfg. unfold fg in *. rewrite mget_dilate1, Hin.
  assert (mget 0 m (y + dy) (x + dx) <= fold_left Z.max (window 0 m offs y x) 0).
  { apply fold_max_in. apply In_window. exists dy, dx. split; [assumption|].
    now rewrite pixel_or_0. }
  specialize (Hu (y + dy) (x + dx)). lia.
Qed.

Lemma erode1_intro offs m y x :
  u8 m -> inside m y x = true ->
  (forall dy dx, In (dy, dx) offs -> inside m (y + dy) (x + dx) = true ->
                 fg m (y + dy) (x + dx)) ->
  fg (erode1 offs m) y x.
Proof.
  intros Hu Hin H. unfold fg. rewrite mget_erode1, Hin.
  assert (1 <= fold_left Z.min (window 255 m offs y x) 255); [|lia].
  apply fold_min_glb; [lia|]. intros v Hv. apply In_window in Hv.
  destruct Hv as (dy & dx & Ho & ->). unfold pixel_or.
  destruct (inside m (y + dy) (x + dx)) eqn:E; [|lia].
  specialize (H dy dx Ho E). unfold fg in H. specialize (Hu (y + dy) (x + dx)). lia.
Qed.

Lemma dilate1_iter_shift offs n m :
  Nat.iter n (dilate1 offs) (dilate1 offs m) = dilate1 offs (Nat.iter n (dilate1 offs) m).
Proof. induction n; simpl; [reflexivity|]. now rewrite IHn. Qed.

Lemma inside_iter (f : Mat Z -> Mat Z) n m y x :
  (forall a, rows (f a) = rows a) -> (forall a, cols (f a) = cols a) ->
  inside (Nat.iter n f m) y x = inside m y x.
Proof.
  intros Hr Hc. apply inside_same; [now apply rows_iter | now apply cols_iter].
Qed.

Lemma closing_extensive offs n m y x :
  symmetric_offsets offs = true -> u8 m -> fg m y x ->
  fg (Nat.iter n (erode1 offs) (Nat.iter n (dilate1 offs) m)) y x.
Proof.
  intros Hs. revert m y x. induction n as [|n IH]; intros m y x Hu Hfg; [exact Hfg|].
  change (Nat.iter (S n) (dilate1 offs) m) with (dilate1 offs (Nat.iter n (dilate1 offs) m)).
  rewrite <- dilate1_iter_shift.
  change (Nat.iter (S n) (erode1 offs) ?X) with (erode1 offs (Nat.iter n (erode1 offs) X)).
  pose proof (fg_inside _ _ _ Hfg) as Hin.
  apply erode1_intro.
  - apply u8_iter; [intros a; apply u8_erode1|].
    apply u8_iter; [intros a; apply u8_dilate1|]. now apply u8_dilate1.
  - rewrite !inside_iter by reflexivity. exact Hin.
  - intros dy dx Ho Hin'. apply IH; [now apply u8_dilate1|].
    rewrite !inside_iter in Hin' by reflexivity.
    apply (dilate1_intro offs m _ _ (- dy) (- dx)); auto.
    + now apply symmetric_offsets_spec.
    + now replace (y + dy + - dy) with y by lia; replace (x + dx + - dx) with x by lia.
Qed.

Lemma ellipse9_symmetric :
  symmetric_offsets (kernel_offsets (getStructuringElement_ELLIPSE (9, 9)%nat)) = true.
Proof. vm_compute. reflexivity. Qed.

(** C6, as amended.  When thresholding yields at least one component,
    [specimen_mask] selects the component [largest = 1 + argmax] of the
    areas, which alone is exactly one connected region (any two of its
    pixels are joined by a path inside it), and returns the two-iteration
    9x9 closing of that component; the closing contains the component (it
    only adds pixels).  The added pixels need not be connected to it. *)
Theorem specimen_mask_contains_one_region image :
  1 < cc_n_labels (specimen_threshold image) ->
  exists largest mask,
    np.argmax (skipn 1 (cc_areas (specimen_threshold image))) = Some (largest - 1) /\
    1 <= largest < cc_n_labels (specimen_threshold image) /\
    specimen_mask image = Some mask /\
    mask = morphologyEx (component_mask (specimen_threshold image) largest) MORPH_CLOSE
             (getStructuringElement_ELLIPSE (9, 9)%nat) 2 /\
    cc_n_labels (component_mask (specimen_threshold image) largest) = 2 /\
    (forall y x y' x',
       fg (component_mask (specimen_threshold image) largest) y x ->
       fg (component_mask (specimen_threshold image) largest) y' x' ->
       connected adj8 (component_mask (specimen_threshold image) largest) (y, x) (y', x')) /\
    forall y x, fg (component_mask (specimen_threshold image) largest) y x -> fg mask y x.
Proof.
  intros Hn. rewrite specimen_mask_unfold. cbv zeta.
  set (th := specimen_threshold image) in *.
  destruct (cc_n_labels th <=? 1) eqn:E; [apply Z.leb_le in E; lia|].
  destruct (np.argmax (skipn 1 (cc_areas th))) as [i|] eqn:Ea.
  2:{ exfalso. destruct (argmax_total (skipn 1 (cc_areas th))) as (i & Hi); [|congruence].
      intros Hnil. pose proof (skipn1_areas_length th) as Hl. rewrite Hnil in Hl.
      simpl in Hl. lia. }
  pose proof (argmax_range _ _ Ea) as Hi. rewrite skipn1_areas_length in Hi.
  exists (1 + i), (morphologyEx (component_mask th (1 + i)) MORPH_CLOSE
                     (getStructuringElement_ELLIPSE (9, 9)%nat) 2).
  split; [f_equal; lia|]. split; [lia|].
  split; [reflexivity|]. split; [reflexivity|].
  split; [apply component_mask_one_region; lia|]. split.
  - intros y x y' x' Hp Hq.
    apply component_mask_fg in Hp; [|lia]. apply component_mask_fg in Hq; [|lia].
    destruct Hp as [Hp Ep], Hq as [Hq Eq].
    apply (connected_in_component th (1 + i) (y, x) (y', x')); [lia | | exact Ep].
    apply cc_same_label; congruence.
  - intros y x Hfg. cbn [morphologyEx]. unfold erode, dilate.
    apply closing_extensive; [apply ellipse9_symmetric | | exact Hfg].
    apply binary_u8, component_mask_binary.
Qed.

Lemma specimen_mask_contains_one_region_witness :
  1 < cc_n_labels (specimen_threshold block_with_crack) /\
  exists largest mask,
    np.argmax (skipn 1 (cc_areas (specimen_threshold block_with_crack))) =
      Some (largest - 1) /\
    1 <= largest < cc_n_labels (specimen_threshold block_with_crack) /\
    specimen_mask block_with_crack = Some mask /\
    mask = morphologyEx (component_mask (specimen_threshold block_with_crack) largest)
             MORPH_CLOSE (getStructuringElement_ELLIPSE (9, 9)%nat) 2 /\
    cc_n_labels (component_mask (specimen_threshold block_with_crack) largest) = 2 /\
    (forall y x y' x',
       fg (component_mask (specimen_threshold block_with_crack) largest) y x ->
       fg (component_mask (specimen_threshold block_with_crack) largest) y' x' ->
       connected adj8 (component_mask (specimen_threshold block_with_crack) largest)
         (y, x) (y', x')) /\
    forall y x, fg (component_mask (specimen_threshold block_with_crack) largest) y x ->
                fg mask y x.
Proof.
  assert (H : 1 < cc_n_labels (specimen_threshold block_with_crack))
    by (vm_compute; reflexivity).
  split; [exact H|]. exact (specimen_mask_contains_one_region block_with_crack H).
Defined.

(** C6 as stated fails: on [disc_at_border] thresholding yields one
    component, and the mask returned after the closing has two connected
    regions: the closing fills the corner pixel (0, 0), none of whose
    neighbours is foreground. *)
Lemma specimen_mask_two_regions :
  cc_n_labels (specimen_threshold disc_at_border) = 2 /\
  exists mask,
    specimen_mask disc_at_border = Some mask /\
    cc_n_labels mask = 3 /\
    fg mask 0 0 /\ ~ fg mask 0 1 /\ ~ fg mask 1 0 /\ ~ fg mask 1 1.
Proof.
  split; [vm_compute; reflexivity|].
  assert (H : match specimen_mask disc_at_border with
              | Some mask =>
                  (cc_n_labels mask =? 3) && fgb mask 0 0 && negb (fgb mask 0 1)
                  && negb (fgb mask 1 0) && negb (fgb mask 1 1)
              | None => false
              end = true) by (vm_compute; reflexivity).
  destruct (specimen_mask disc_at_border) as [mask|]; [|discriminate].
  exists mask. split; [reflexivity|].
  rewrite !andb_true_iff in H. destruct H as [[[[Hn H00] H01] H10] H11].
  apply Z.eqb_eq in Hn. unfold fgb in *. unfold fg.
  rewrite negb_true_iff in H00. rewrite !negb_involutive in H01, H10, H11.
  apply Z.eqb_neq in H00. apply Z.eqb_eq in H01, H10, H11.
  repeat split; auto; intros Hc; apply Hc; assumption.
Qed.

(** ** The store *)

Lemma length_update {A} (l : list A) i v : length (update l i v) = length l.
Proof.
  revert i. induction l as [|u l IH]; intros [|i]; simpl; auto.
Qed.

Lemma nth_error_update_eq {A} (l : list A) i v :
  (i < length l)%nat -> nth_error (update l i v) i = Some v.
Proof.
  revert i. induction l as [|u l IH]; intros [|i] Hi; simpl in *; try lia; auto.
  apply IH. lia.
Qed.

Lemma nth_error_update_ne {A} (l : list A) i j v :
  i <> j -> nth_error (update l i v) j = nth_error l j.
Proof.
  revert i j. induction l as [|u l IH]; intros [|i] [|j] Hij; simpl; auto; try lia.
Qed.

Lemma update_same {A} (l : list A) i v : nth_error l i = Some v -> update l i v = l.
Proof.
  revert i. induction l as [|u l IH]; intros [|i] H; simpl in *; try discriminate.
  - now inversion H.
  - f_equal. now apply IH.
Qed.

Lemma update_update {A} (l : list A) i u v : update (update l i u) i v = update l i v.
Proof.
  revert i. induction l as [|w l IH]; intros [|i]; simpl; auto. now rewrite IH.
Qed.

(** ** The counting loop *)

Section Loop.
Variable putText : Mat BGR -> string -> Z * Z -> Z -> Q -> BGR -> Z -> Mat BGR.

Lemma label_loop_spec labels stats min_area overlay range :
  forall count h ov,
    nth_error h overlay = Some ov ->
    label_loop putText labels stats min_area overlay range count h =
    match draw_all putText labels (filter (qualifies stats min_area) range) count ov with
    | Some ov' =>
        Some (count + Z.of_nat (length (filter (qualifies stats min_area) range)),
              update h overlay ov')
    | None => None
    end.
Proof.
  induction range as [|label range IH]; intros count h ov Hov.
  - simpl. unfold ret. rewrite (update_same h overlay ov Hov). now rewrite Z.add_0_r.
  - cbn [label_loop filter].
    assert (Hq : qualifies stats min_area label
                 = negb (nth (Z.to_nat label) stats 0 <? min_area)) by reflexivity.
    rewrite Hq. clear Hq.
    destruct (nth (Z.to_nat label) stats 0 <? min_area) eqn:Ea; cbn [negb].
    + now apply IH.
    + cbn [draw_all length]. unfold centroid.
      destruct (np.where_coords labels label) as [ys xs].
      unfold bind at 1. destruct (np.int_mean ys) as [cy|]; [|reflexivity].
      cbn [lift]. unfold ret at 1.
      unfold bind at 1. destruct (np.int_mean xs) as [cx|]; [|reflexivity].
      cbn [lift]. unfold ret at 1.
      unfold bind at 1. unfold putText_inplace, bind at 1, load. rewrite Hov.
      unfold store.
      assert (Hlt : (overlay < length h)%nat) by (apply nth_error_Some; congruence).
      apply Nat.ltb_lt in Hlt. rewrite Hlt. apply Nat.ltb_lt in Hlt.
      rewrite (IH (count + 1) (update h overlay _) _ (nth_error_update_eq h overlay _ Hlt)).
      unfold draw. cbn [fst snd].
      destruct (draw_all _ _ _ _ _) as [ov'|]; [|reflexivity].
      rewrite update_update. f_equal. f_equal. lia.
Qed.

Lemma count_particles_unfold image min_area h :
  count_particles putText image min_area h =
  match nth_error h image with
  | None => None
  | Some img =>
      match particle_mask img with
      | None => None
      | Some particles =>
          match draw_all putText (cc_labels particles)
                  (filter (qualifies (cc_areas particles) min_area)
                     (range1 (cc_n_labels particles))) 0 img with
          | Some ov =>
              Some ((Z.of_nat (length (filter (qualifies (cc_areas particles) min_area)
                                         (range1 (cc_n_labels particles)))),
                     length h), h ++ [ov])
          | None => None
          end
      end
  end.
Proof.
  unfold count_particles, particle_mask. unfold bind at 1. unfold load.
  destruct (nth_error h image) as [img|] eqn:Himg; [|reflexivity].
  unfold bind at 1. destruct (specimen_mask img) as [specimen|]; [|reflexivity].
  cbn [lift]. unfold ret at 1.
  unfold bind at 1. destruct (crack_mask img specimen) as [cracks|]; [|reflexivity].
  cbn [lift]. unfold ret at 1.
  unfold bind at 1.
  destruct (bitwise_and specimen (bitwise_not cracks)) as [particles|]; [|reflexivity].
  cbn [lift]. unfold ret at 1. cbv zeta.
  set (p := morphologyEx particles MORPH_OPEN (getStructuringElement_ELLIPSE (3, 3)%nat) 1).
  unfold cc_labels, cc_areas, cc_n_labels.
  destruct (connectedComponentsWithStats p) as [[n labels] stats]. cbn [fst snd].
  unfold bind at 1. unfold copy, bind at 1, load. rewrite Himg. unfold alloc.
  unfold bind at 1.
  assert (Hov : nth_error (h ++ [img]) (length h) = Some img).
  { rewrite nth_error_app2 by lia. now rewrite Nat.sub_diag. }
  rewrite (label_loop_spec labels stats min_area (length h) (range1 n) 0 (h ++ [img]) img Hov).
  destruct (draw_all _ _ _ _ _) as [ov|]; [|reflexivity].
  unfold ret. f_equal. f_equal.
  clear. induction h as [|a h IH]; simpl; [reflexivity|]. now rewrite IH.
Qed.

End Loop.

(** ** Masks stay binary *)

Lemma pixel_or_binary b m y x :
  binary m -> b = 0 \/ b = 255 -> pixel_or b m y x = 0 \/ pixel_or b m y x = 255.
Proof. intros Hm Hb. unfold pixel_or. destruct (inside m y x); [apply Hm | exact Hb]. Qed.

Lemma binary_dilate1 offs m : binary m -> binary (dilate1 offs m).
Proof.
  intros H y x. rewrite mget_dilate1. destruct (inside m y x); [|now left].
  destruct (fold_max_cases (window 0 m offs y x) 0) as [->|Hin]; [now left|].
  apply In_window in Hin. destruct Hin as (dy & dx & _ & ->).
  apply pixel_or_binary; auto.
Qed.

Lemma binary_erode1 offs m : binary m -> binary (erode1 offs m).
Proof.
  intros H y x. rewrite mget_erode1. destruct (inside m y x); [|now left].
  destruct (fold_min_cases (window 255 m offs y x) 255) as [->|Hin]; [now right|].
  apply In_window in Hin. destruct Hin as (dy & dx & _ & ->).
  apply pixel_or_binary; auto.
Qed.

Lemma binary_iter f n m :
  (forall a, binary a -> binary (f a)) -> binary m -> binary (Nat.iter n f m).
Proof. intros Hf Hm. induction n; simpl; auto. Qed.

Lemma binary_morphologyEx m op k n :
  op <> MORPH_BLACKHAT -> binary m -> binary (morphologyEx m op k n).
Proof.
  intros Hop Hm. destruct op; [| |congruence]; cbn [morphologyEx]; unfold erode, dilate.
  - apply binary_iter; [intros a; apply binary_dilate1|].
    apply binary_iter; [intros a; apply binary_erode1|]. exact Hm.
  - apply binary_iter; [intros a; apply binary_erode1|].
    apply binary_iter; [intros a; apply binary_dilate1|]. exact Hm.
Qed.

Lemma binary_bitwise_and a b c :
  binary a -> binary b -> bitwise_and a b = Some c -> binary c.
Proof.
  intros Ha Hb H y x. apply bitwise_and_Some in H. destruct H as (_ & _ & _ & _ & H).
  rewrite H. destruct (Ha y x) as [-> | ->], (Hb y x) as [-> | ->]; auto.
Qed.

Lemma mget_bitwise_not a y x :
  mget 0 (bitwise_not a) y x = if inside a y x then Z.lxor (mget 0 a y x) 255 else 0.
Proof.
  unfold bitwise_not. rewrite mget_cases.
  now replace (inside (build _ _ _) y x) with (inside a y x) by reflexivity.
Qed.

Lemma binary_bitwise_not a : binary a -> binary (bitwise_not a).
Proof.
  intros Ha y x. rewrite mget_bitwise_not. destruct (inside a y x); [|now left].
  destruct (Ha y x) as [-> | ->]; auto.
Qed.

(** ** Every stage returns *)

Lemma specimen_mask_total image :
  exists specimen,
    specimen_mask image = Some specimen /\
    rows specimen = rows image /\ cols specimen = cols image /\ binary specimen.
Proof.
  rewrite specimen_mask_unfold. cbv zeta. set (th := specimen_threshold image).
  destruct (cc_n_labels th <=? 1) eqn:E.
  - exists th. repeat split. apply specimen_threshold_binary.
  - apply Z.leb_gt in E.
    destruct (argmax_total (skipn 1 (cc_areas th))) as (i & ->).
    { intros Hnil. pose proof (skipn1_areas_length th) as Hl. rewrite Hnil in Hl.
      simpl in Hl. lia. }
    eexists. split; [reflexivity|].
    destruct (shape_morphologyEx (component_mask th (1 + i)) MORPH_CLOSE
                (getStructuringElement_ELLIPSE (9, 9)%nat) 2) as [-> ->].
    repeat split. apply binary_morphologyEx; [discriminate|].
    apply component_mask_binary.
Qed.

Lemma crack_candidates_shape image :
  rows (crack_candidates image) = rows image /\ cols (crack_candidates image) = cols image.
Proof.
  unfold crack_candidates.
  set (bh := morphologyEx _ MORPH_BLACKHAT _ 1).
  assert (Hs : rows bh = rows image /\ cols bh = cols image).
  { unfold bh. destruct (shape_morphologyEx
      (CLAHE_apply 2 (8, 8)%nat (cvtColor_BGR2GRAY image)) MORPH_BLACKHAT
      (getStructuringElement_ELLIPSE (11, 11)%nat) 1) as [-> ->].
    split; reflexivity. }
  pose proof (threshold_shape bh 255) as [H1 H2].
  destruct (threshold_BINARY_OTSU bh 255) as [t c]. cbn [snd] in *. lia.
Qed.

Lemma crack_mask_total image specimen :
  rows specimen = rows image -> cols specimen = cols image ->
  exists cracks,
    crack_mask image specimen = Some cracks /\
    rows cracks = rows image /\ cols cracks = cols image /\ u8 cracks /\
    (binary specimen -> binary cracks).
Proof.
  intros Hr Hc. rewrite crack_mask_unfold.
  destruct (crack_candidates_shape image) as [Hr' Hc'].
  destruct (bitwise_and_total (crack_candidates image) specimen) as (inter & Hand);
    [congruence | congruence |].
  rewrite Hand. eexists. split; [reflexivity|].
  pose proof (bitwise_and_Some _ _ _ Hand) as (_ & _ & Hri & Hci & _).
  rewrite !rows_iter, !cols_iter by reflexivity.
  split; [congruence|]. split; [congruence|]. split.
  - apply u8_iter; [intros a; apply u8_erode1|].
    apply u8_iter; [intros a; apply u8_dilate1|].
    apply u8_iter; [intros a; apply u8_dilate1|].
    eapply bitwise_and_u8_l; [apply crack_candidates_binary | exact Hand].
  - intros Hb.
    apply binary_iter; [intros a; apply binary_erode1|].
    apply binary_iter; [intros a; apply binary_dilate1|].
    apply binary_iter; [intros a; apply binary_dilate1|].
    eapply binary_bitwise_and; [apply crack_candidates_binary | exact Hb | exact Hand].
Qed.

Lemma particle_mask_total image :
  exists particles,
    particle_mask image = Some particles /\
    rows particles = rows image /\ cols particles = cols image.
Proof.
  unfold particle_mask.
  destruct (specimen_mask_total image) as (specimen & -> & Hr & Hc & Hb).
  destruct (crack_mask_total image specimen Hr Hc) as (cracks & -> & Hr' & Hc' & _).
  destruct (bitwise_and_total specimen (bitwise_not cracks)) as (p & Hand);
    [simpl; congruence | simpl; congruence |].
  rewrite Hand. eexists. split; [reflexivity|].
  pose proof (bitwise_and_Some _ _ _ Hand) as (_ & _ & Hrp & Hcp & _).
  destruct (shape_morphologyEx p MORPH_OPEN (getStructuringElement_ELLIPSE (3, 3)%nat) 1)
    as [-> ->].
  split; congruence.
Qed.

Lemma In_range1 n l : In l (range1 n) <-> 1 <= l < n.
Proof.
  unfold range1. rewrite in_map_iff. split.
  - intros (i & <- & Hi). apply in_seq in Hi. lia.
  - intros H. exists (Z.to_nat l). split; [lia|]. apply in_seq. lia.
Qed.

Lemma length_range1 n : Z.of_nat (length (range1 n)) = Z.max 0 (n - 1).
Proof. unfold range1. rewrite length_map, length_seq. lia. Qed.

Lemma where_coords_spec a v :
  np.where_coords a v =
  (map fst (filter (fun '(y, x) => mget 0 a y x =? v) (coords a)),
   map snd (filter (fun '(y, x) => mget 0 a y x =? v) (coords a))).
Proof. reflexivity. Qed.

Lemma int_mean_total l : l <> [] -> exists c, np.int_mean l = Some c.
Proof. destruct l; [congruence | simpl; eauto]. Qed.

Lemma centroid_total labels l y x :
  inside labels y x = true -> mget 0 labels y x = l ->
  exists c, centroid labels l = Some c.
Proof.
  intros Hin El. unfold centroid. rewrite where_coords_spec.
  set (hits := filter _ (coords labels)).
  assert (Hh : In (y, x) hits).
  { apply filter_In. split; [now apply In_coords | now apply Z.eqb_eq]. }
  destruct (int_mean_total (map fst hits)) as (cy & ->).
  { destruct hits; [contradiction | discriminate]. }
  destruct (int_mean_total (map snd hits)) as (cx & ->).
  { destruct hits; [contradiction | discriminate]. }
  eauto.
Qed.

Lemma centroid_of_component m l :
  1 <= l < cc_n_labels m -> exists c, centroid (cc_labels m) l = Some c.
Proof.
  intros Hl. destruct (cc_label_used m l Hl) as (y & x & Hfg & E).
  apply (centroid_total _ l y x); [|exact E].
  rewrite (inside_same _ m) by reflexivity. now apply fg_inside.
Qed.

Section Totality.
Variable putText : Mat BGR -> string -> Z * Z -> Z -> Q -> BGR -> Z -> Mat BGR.

Lemma draw_all_total m ls count ov :
  (forall l, In l ls -> 1 <= l < cc_n_labels m) ->
  exists ov', draw_all putText (cc_labels m) ls count ov = Some ov'.
Proof.
  revert count ov. induction ls as [|l ls IH]; intros count ov H; simpl; [eauto|].
  destruct (centroid_of_component m l) as (c & ->); [apply H; now left|].
  apply IH. intros; apply H; now right.
Qed.

Lemma qualifying_in_range stats min_area n l :
  In l (filter (qualifies stats min_area) (range1 n)) -> 1 <= l < n.
Proof. intros H. apply filter_In in H. now apply In_range1. Qed.

(** [count_particles] returns for every image in the store. *)
Lemma count_particles_total image min_area h img :
  nth_error h image = Some img ->
  exists particles ov,
    particle_mask img = Some particles /\
    draw_all putText (cc_labels particles)
      (filter (qualifies (cc_areas particles) min_area) (range1 (cc_n_labels particles)))
      0 img = Some ov /\
    count_particles putText image min_area h =
    Some ((Z.of_nat (length (filter (qualifies (cc_areas particles) min_area)
                               (range1 (cc_n_labels particles)))),
           length h), h ++ [ov]).
Proof.
  intros Himg. destruct (particle_mask_total img) as (particles & Hp & _).
  destruct (draw_all_total particles
              (filter (qualifies (cc_areas particles) min_area)
                 (range1 (cc_n_labels particles))) 0 img) as (ov & Hov).
  { intros l. apply qualifying_in_range. }
  exists particles, ov. split; [exact Hp|]. split; [exact Hov|].
  rewrite count_particles_unfold, Himg, Hp, Hov. reflexivity.
Qed.

End Totality.

(** ** Particles lie in the specimen, off the cracks *)

Lemma erode1_fg_offset offs m y x dy dx :
  u8 m -> In (dy, dx) offs -> inside m (y + dy) (x + dx) = true ->
  fg (erode1 offs m) y x -> fg m (y + dy) (x + dx).
Proof.
  intros Hu Ho Hin' Hfg. pose proof (fg_inside _ _ _ Hfg) as Hin.
  rewrite (inside_same _ m) in Hin by reflexivity.
  unfold fg in *. rewrite mget_erode1, Hin in Hfg.
  assert (Hle : fold_left Z.min (window 255 m offs y x) 255 <= mget 0 m (y + dy) (x + dx)).
  { apply fold_min_in. apply In_window. exists dy, dx. split; [assumption|].
    symmetry. now apply pixel_or_inside. }
  assert (Hge : 0 <= fold_left Z.min (window 255 m offs y x) 255).
  { apply fold_min_glb; [lia|]. intros v Hv. apply In_window in Hv.
    destruct Hv as (ey & ex & _ & ->). now apply pixel_or_u8. }
  lia.
Qed.

Lemma opening_shrinks offs m y x :
  symmetric_offsets offs = true -> u8 m ->
  fg (dilate1 offs (erode1 offs m)) y x -> fg m y x.
Proof.
  intros Hs Hu Hfg. pose proof (fg_inside _ _ _ Hfg) as Hin.
  rewrite (inside_same _ m) in Hin by reflexivity.
  apply dilate1_fg in Hfg. destruct Hfg as (dy & dx & Ho & Hfg).
  apply (erode1_fg_offset offs m _ _ (- dy) (- dx)) in Hfg; auto.
  - now replace (y + dy + - dy) with y in Hfg by lia;
      replace (x + dx + - dx) with x in Hfg by lia.
  - now apply symmetric_offsets_spec.
  - now replace (y + dy + - dy) with y by lia; replace (x + dx + - dx) with x by lia.
Qed.

Lemma cross3_symmetric : symmetric_offsets cross3 = true.
Proof. reflexivity. Qed.

Lemma particle_mask_unfold image :
  particle_mask image =
  match specimen_mask image with
  | None => None
  | Some specimen =>
      match crack_mask image specimen with
      | None => None
      | Some cracks =>
          match bitwise_and specimen (bitwise_not cracks) with
          | None => None
          | Some particles => Some (dilate1 cross3 (erode1 cross3 particles))
          end
      end
  end.
Proof.
  unfold particle_mask. destruct (specimen_mask image); [|reflexivity].
  destruct (crack_mask image m); [|reflexivity].
  destruct (bitwise_and m (bitwise_not m0)); [|reflexivity].
  cbn [morphologyEx]. unfold dilate, erode. now rewrite ellipse3_offsets.
Qed.

Lemma particles_in_specimen image specimen cracks particles y x :
  specimen_mask image = Some specimen ->
  crack_mask image specimen = Some cracks ->
  particle_mask image = Some particles ->
  fg particles y x -> fg specimen y x /\ ~ fg cracks y x.
Proof.
  intros Hs Hc Hp Hfg. rewrite particle_mask_unfold, Hs, Hc in Hp.
  destruct (bitwise_and specimen (bitwise_not cracks)) as [p|] eqn:Hand; [|discriminate].
  injection Hp as <-.
  destruct (specimen_mask_total image) as (sp & Hs' & Hr & Hcl & Hb).
  assert (sp = specimen) by congruence. subst sp.
  destruct (crack_mask_total image specimen Hr Hcl) as (cr & Hc' & _ & _ & _ & Hbc).
  assert (cr = cracks) by congruence. subst cr. specialize (Hbc Hb).
  apply opening_shrinks in Hfg; [|reflexivity|].
  2:{ eapply bitwise_and_u8_l; [exact Hb | exact Hand]. }
  apply (bitwise_and_fg _ _ _ _ _ Hand) in Hfg. destruct Hfg as [H1 H2].
  split; [exact H1|]. intros Hcr. unfold fg in H2, Hcr.
  rewrite mget_bitwise_not in H2. destruct (inside cracks y x); [|congruence].
  destruct (Hbc y x) as [E|E]; [congruence|]. rewrite E in H2. now apply H2.
Qed.

Lemma cc_no_foreground m : (forall y x, ~ fg m y x) <-> cc_n_labels m = 1.
Proof.
  split.
  - intros H. pose proof (cc_n_labels_pos m).
    destruct (Z_lt_le_dec 1 (cc_n_labels m)) as [Hn|]; [|lia].
    destruct (cc_label_used m 1 ltac:(lia)) as (y & x & Hfg & _).
    now destruct (H y x).
  - intros Hn y x Hfg. pose proof (cc_label_range m y x Hfg). lia.
Qed.

(** ** The ranks and centroids *)

Lemma sum_Z_nonneg l : (forall v, In v l -> 0 <= v) -> 0 <= sum_Z l.
Proof.
  induction l as [|v l IH]; intros H; simpl; [lia|].
  pose proof (H v (or_introl eq_refl)).
  assert (0 <= sum_Z l) by (apply IH; intros; apply H; now right). lia.
Qed.

Lemma int_mean_truncated l q :
  (forall v, In v l -> 0 <= v) -> np.int_mean l = Some q -> truncated_mean l q.
Proof.
  intros Hnn H. destruct l as [|v l]; [discriminate|].
  remember (v :: l) as ll eqn:Ell.
  assert (Hq : q = Z.quot (sum_Z ll) (Z.of_nat (length ll))).
  { subst ll. unfold np.int_mean in H. now injection H as <-. }
  clear H. set (n := Z.of_nat (length ll)) in *.
  assert (Hlen : (0 < length ll)%nat) by (subst ll; simpl; lia).
  assert (Hn : 0 < n) by (unfold n; lia).
  pose proof (sum_Z_nonneg ll Hnn) as Hs.
  rewrite Z.quot_div_nonneg in Hq by lia. subst q.
  split; [exact Hlen|]. fold n.
  pose proof (Z.mul_div_le (sum_Z ll) n Hn).
  pose proof (Z.mul_succ_div_gt (sum_Z ll) n Hn). lia.
Qed.

Lemma centroid_spec labels l cy cx :
  centroid labels l = Some (cy, cx) ->
  exists ys xs,
    np.where_coords labels l = (ys, xs) /\
    area_of labels l = Z.of_nat (length ys) /\ length xs = length ys /\
    truncated_mean ys cy /\ truncated_mean xs cx.
Proof.
  unfold centroid. rewrite where_coords_spec.
  set (hits := filter _ (coords labels)).
  destruct (np.int_mean (map fst hits)) as [cy'|] eqn:Ey; [|discriminate].
  destruct (np.int_mean (map snd hits)) as [cx'|] eqn:Ex; [|discriminate].
  intros [= <- <-]. exists (map fst hits), (map snd hits).
  split; [reflexivity|]. split; [unfold area_of; now rewrite length_map|].
  split; [now rewrite !length_map|].
  assert (Hpos : forall p, In p hits -> 0 <= fst p /\ 0 <= snd p).
  { intros [y x] Hp. apply filter_In in Hp. destruct Hp as [Hp _].
    apply In_coords, inside_iff in Hp. simpl. lia. }
  split; apply int_mean_truncated; try assumption;
    intros v Hv; apply in_map_iff in Hv; destruct Hv as (p & <- & Hp); now apply Hpos.
Qed.

Section Ranks.
Variable putText : Mat BGR -> string -> Z * Z -> Z -> Q -> BGR -> Z -> Mat BGR.

Lemma ranks_from_S a n : ranks_from a (S n) = a :: ranks_from (a + 1) n.
Proof.
  unfold ranks_from. cbn [seq map]. f_equal; [lia|].
  rewrite <- seq_shift, map_map. apply map_ext. intros i. lia.
Qed.

Lemma draw_all_ranked labels ls count ov ov' :
  draw_all putText labels ls count ov = Some ov' ->
  ov' = fold_left (fun o '(rank, l) => draw putText o rank (centroid_or_origin labels l))
          (combine (ranks_from (count + 1) (length ls)) ls) ov.
Proof.
  revert count ov. induction ls as [|l ls IH]; intros count ov H.
  - simpl in H. injection H as <-. reflexivity.
  - cbn [draw_all] in H. cbn [length]. rewrite ranks_from_S. cbn [combine fold_left].
    unfold centroid_or_origin at 2.
    destruct (centroid labels l) as [c|]; [|discriminate].
    now apply IH.
Qed.

Lemma draw_all_centroids labels ls count ov ov' :
  draw_all putText labels ls count ov = Some ov' ->
  forall l, In l ls -> exists c, centroid labels l = Some c.
Proof.
  revert count ov. induction ls as [|l ls IH]; intros count ov H l' Hin; [contradiction|].
  cbn [draw_all] in H. destruct (centroid labels l) as [c|] eqn:E; [|discriminate].
  destruct Hin as [<-|Hin]; [eauto|]. eapply IH; eauto.
Qed.

End Ranks.

Lemma qualifies_area m min_area :
  filter (qualifies (cc_areas m) min_area) (range1 (cc_n_labels m)) =
  filter (fun l => negb (area_of (cc_labels m) l <? min_area)) (range1 (cc_n_labels m)).
Proof.
  apply filter_ext_in. intros l Hl. apply In_range1 in Hl.
  unfold qualifies. now rewrite cc_areas_nth by lia.
Qed.

Lemma length_filter_le {A} (p : A -> bool) l : (length (filter p l) <= length l)%nat.
Proof. induction l as [|a l IH]; simpl; [lia|]. destruct (p a); simpl; lia. Qed.

Lemma length_filter_mono {A} (p q : A -> bool) l :
  (forall a, In a l -> p a = true -> q a = true) ->
  (length (filter p l) <= length (filter q l))%nat.
Proof.
  induction l as [|a l IH]; intros H; simpl; [lia|].
  assert (IH' : (length (filter p l) <= length (filter q l))%nat)
    by (apply IH; intros; apply H; simpl; auto).
  destruct (p a) eqn:Ep.
  - rewrite (H a (or_introl eq_refl) Ep). simpl. lia.
  - destruct (q a); simpl; lia.
Qed.

(** ** Properties of [count_particles] *)

Section CountParticles.
Variable putText : Mat BGR -> string -> Z * Z -> Z -> Q -> BGR -> Z -> Mat BGR.

(** C2.  For a fixed image, raising [min_area] never raises the count. *)
Theorem count_antitone_in_min_area image h img a b :
  nth_error h image = Some img -> a <= b ->
  exists ca oa ha cb ob hb,
    count_particles putText image a h = Some ((ca, oa), ha) /\
    count_particles putText image b h = Some ((cb, ob), hb) /\
    cb <= ca.
Proof.
  intros Himg Hab.
  destruct (count_particles_total putText image a h img Himg) as (p & ova & Hp & _ & Ha).
  destruct (count_particles_total putText image b h img Himg) as (p' & ovb & Hp' & _ & Hb).
  assert (p' = p) by congruence. subst p'.
  do 6 eexists. split; [exact Ha|]. split; [exact Hb|].
  apply inj_le. apply length_filter_mono. intros l _. unfold qualifies.
  rewrite !negb_true_iff, !Z.ltb_ge. lia.
Qed.

(** C7.  The count is non-negative and at most the number of connected
    components (labels other than the background label 0) of the particle
    mask that is labelled before the area filter. *)
Theorem count_bounded_by_components image h img min_area :
  nth_error h image = Some img ->
  exists particles count overlay h',
    particle_mask img = Some particles /\
    count_particles putText image min_area h = Some ((count, overlay), h') /\
    0 <= count <= cc_n_labels particles - 1.
Proof.
  intros Himg.
  destruct (count_particles_total putText image min_area h img Himg)
    as (p & ov & Hp & _ & Hrun).
  exists p. do 3 eexists. split; [exact Hp|]. split; [exact Hrun|].
  pose proof (length_filter_le (qualifies (cc_areas p) min_area) (range1 (cc_n_labels p))).
  pose proof (length_range1 (cc_n_labels p)). pose proof (cc_n_labels_pos p). lia.
Qed.

(** C4.  A labelled component is dropped exactly when its pixel area is
    below [min_area] (an area equal to [min_area] is kept); the kept
    components, in ascending label order, receive the ranks 1, 2, ..., the
    count is their number, and the rank of each is drawn relative to the
    truncated mean row and mean column of its pixels. *)
Theorem components_ranked_by_area image h img min_area :
  nth_error h image = Some img ->
  exists particles count overlay h',
    particle_mask img = Some particles /\
    count_particles putText image min_area h = Some ((count, overlay), h') /\
    let labels := cc_labels particles in
    let kept := filter (fun l => negb (area_of labels l <? min_area))
                       (range1 (cc_n_labels particles)) in
    (forall l, 1 <= l < cc_n_labels particles ->
       nth (Z.to_nat l) (cc_areas particles) 0 = area_of labels l) /\
    (forall l, 1 <= l < cc_n_labels particles ->
       (In l kept <-> ~ area_of labels l < min_area)) /\
    (forall l, 1 <= l < cc_n_labels particles -> area_of labels l = min_area -> In l kept) /\
    count = Z.of_nat (length kept) /\
    (forall l, In l kept ->
       exists cy cx ys xs,
         centroid labels l = Some (cy, cx) /\
         np.where_coords labels l = (ys, xs) /\
         area_of labels l = Z.of_nat (length ys) /\ length xs = length ys /\
         truncated_mean ys cy /\ truncated_mean xs cx) /\
    nth_error h' overlay =
      Some (fold_left (fun o '(rank, l) => draw putText o rank (centroid_or_origin labels l))
              (combine (ranks_from 1 (length kept)) kept) img).
Proof.
  intros Himg.
  destruct (count_particles_total putText image min_area h img Himg)
    as (p & ov & Hp & Hdraw & Hrun).
  exists p. do 3 eexists. split; [exact Hp|]. split; [exact Hrun|]. cbv zeta.
  rewrite qualifies_area in *.
  set (kept := filter _ (range1 (cc_n_labels p))) in *.
  assert (Hkept : forall l, 1 <= l < cc_n_labels p ->
                  (In l kept <-> ~ area_of (cc_labels p) l < min_area)).
  { intros l Hl. unfold kept. rewrite filter_In, In_range1, negb_true_iff, Z.ltb_ge. lia. }
  split; [intros l Hl; apply cc_areas_nth; lia|].
  split; [exact Hkept|].
  split; [intros l Hl E; apply Hkept; lia|].
  split; [reflexivity|].
  split.
  - intros l Hl. destruct (draw_all_centroids _ _ _ _ _ _ Hdraw l Hl) as ([cy cx] & Hc).
    destruct (centroid_spec _ _ _ _ Hc) as (ys & xs & Hw & Ha & Hlen & Hy & Hx).
    exists cy, cx, ys, xs. tauto.
  - rewrite nth_error_app2 by lia. rewrite Nat.sub_diag. cbn [nth_error]. f_equal.
    now apply draw_all_ranked in Hdraw.
Qed.

(** C9.  [count_particles] leaves the input image, and every other array
    of the store, as it was: the overlay it draws on is a new array. *)
Theorem input_image_unchanged image min_area h count overlay h' :
  count_particles putText image min_area h = Some ((count, overlay), h') ->
  nth_error h' image = nth_error h image /\
  overlay <> image /\
  nth_error h overlay = None /\
  forall l, (l < length h)%nat -> nth_error h' l = nth_error h l.
Proof.
  rewrite count_particles_unfold.
  destruct (nth_error h image) as [img|] eqn:Himg; [|discriminate].
  destruct (particle_mask img) as [p|]; [|discriminate].
  destruct (draw_all _ _ _ _ _) as [ov|]; [|discriminate].
  intros [= <- <- <-].
  assert (Hlt : (image < length h)%nat) by (apply nth_error_Some; congruence).
  split; [rewrite nth_error_app1 by lia; exact Himg|].
  split; [lia|]. split; [apply nth_error_None; lia|].
  intros l Hl. now rewrite nth_error_app1 by lia.
Qed.

(** C10.  Every run builds an overlay (a new array of the store); when no
    region qualifies it holds exactly the pixels of the input image. *)
Theorem overlay_without_regions image min_area h count overlay h' :
  count_particles putText image min_area h = Some ((count, overlay), h') ->
  nth_error h overlay = None /\
  (exists o, nth_error h' overlay = Some o) /\
  (count = 0 -> nth_error h' overlay = nth_error h image).
Proof.
  rewrite count_particles_unfold.
  destruct (nth_error h image) as [img|] eqn:Himg; [|discriminate].
  destruct (particle_mask img) as [p|]; [|discriminate].
  destruct (draw_all _ _ _ _ _) as [ov|] eqn:Hd; [|discriminate].
  intros [= <- <- <-].
  split; [apply nth_error_None; lia|].
  rewrite nth_error_app2 by lia. rewrite Nat.sub_diag. cbn [nth_error].
  split; [eauto|]. intros H0.
  destruct (filter _ _) as [|l ls]; [|simpl in H0; lia].
  simpl in Hd. congruence.
Qed.

(** C5.  When thresholding yields no component, [specimen_mask] returns
    the thresholded mask itself, and [count_particles] still returns: the
    count is 0. *)
Theorem degenerate_threshold_returns_mask img :
  cc_n_labels (specimen_threshold img) <= 1 ->
  specimen_mask img = Some (specimen_threshold img) /\
  forall image min_area h,
    nth_error h image = Some img ->
    exists overlay h',
      count_particles putText image min_area h = Some ((0, overlay), h').
Proof.
  intros Hn. assert (Hs : specimen_mask img = Some (specimen_threshold img)).
  { rewrite specimen_mask_unfold. cbv zeta. apply Z.leb_le in Hn. now rewrite Hn. }
  split; [exact Hs|]. intros image min_area h Himg.
  destruct (count_particles_total putText image min_area h img Himg)
    as (p & ov & Hp & Hdraw & Hrun).
  assert (Hempty : cc_n_labels p = 1).
  { apply cc_no_foreground. intros y x Hfg.
    destruct (crack_mask_total img (specimen_threshold img)) as (cr & Hc & _);
      try reflexivity.
    destruct (particles_in_specimen img _ _ _ y x Hs Hc Hp Hfg) as [Hsp _].
    pose proof (cc_label_range _ y x Hsp). lia. }
  rewrite Hempty in Hrun. do 2 eexists. exact Hrun.
Qed.

End CountParticles.

(** *** Instances on [block_with_crack] *)

Lemma count_antitone_in_min_area_witness :
  nth_error [block_with_crack] 0 = Some block_with_crack /\ 10 <= 30 /\
  exists ca oa ha cb ob hb,
    count_particles putText_dot 0%nat 10 [block_with_crack] = Some ((ca, oa), ha) /\
    count_particles putText_dot 0%nat 30 [block_with_crack] = Some ((cb, ob), hb) /\
    cb <= ca.
Proof.
  split; [reflexivity|]. split; [lia|].
  apply (count_antitone_in_min_area putText_dot 0%nat [block_with_crack] block_with_crack);
    [reflexivity | lia].
Defined.

Lemma count_bounded_by_components_witness :
  nth_error [block_with_crack] 0 = Some block_with_crack /\
  exists particles count overlay h',
    particle_mask block_with_crack = Some particles /\
    count_particles putText_dot 0%nat 10 [block_with_crack] = Some ((count, overlay), h') /\
    0 <= count <= cc_n_labels particles - 1.
Proof.
  split; [reflexivity|].
  apply (count_bounded_by_components putText_dot 0%nat [block_with_crack] block_with_crack).
  reflexivity.
Defined.

Lemma components_ranked_by_area_witness :
  nth_error [block_with_crack] 0 = Some block_with_crack /\
  exists particles count overlay h',
    particle_mask block_with_crack = Some particles /\
    count_particles putText_dot 0%nat 23 [block_with_crack] = Some ((count, overlay), h') /\
    let labels := cc_labels particles in
    let kept := filter (fun l => negb (area_of labels l <? 23))
                       (range1 (cc_n_labels particles)) in
    (forall l, 1 <= l < cc_n_labels particles ->
       nth (Z.to_nat l) (cc_areas particles) 0 = area_of labels l) /\
    (forall l, 1 <= l < cc_n_labels particles ->
       (In l kept <-> ~ area_of labels l < 23)) /\
    (forall l, 1 <= l < cc_n_labels particles -> area_of labels l = 23 -> In l kept) /\
    count = Z.of_nat (length kept) /\
    (forall l, In l kept ->
       exists cy cx ys xs,
         centroid labels l = Some (cy, cx) /\
         np.where_coords labels l = (ys, xs) /\
         area_of labels l = Z.of_nat (length ys) /\ length xs = length ys /\
         truncated_mean ys cy /\ truncated_mean xs cx) /\
    nth_error h' overlay =
      Some (fold_left (fun o '(rank, l) => draw putText_dot o rank (centroid_or_origin labels l))
              (combine (ranks_from 1 (length kept)) kept) block_with_crack).
Proof.
  split; [reflexivity|].
  apply (components_ranked_by_area putText_dot 0%nat [block_with_crack] block_with_crack).
  reflexivity.
Defined.

Lemma degenerate_threshold_returns_mask_witness :
  cc_n_labels (specimen_threshold black8) <= 1 /\
  specimen_mask black8 = Some (specimen_threshold black8) /\
  forall image min_area h,
    nth_error h image = Some black8 ->
    exists overlay h',
      count_particles putText_dot image min_area h = Some ((0, overlay), h').
Proof.
  assert (H : cc_n_labels (specimen_threshold black8) <= 1)
    by (vm_compute; discriminate).
  split; [exact H|].
  exact (degenerate_threshold_returns_mask putText_dot black8 H).
Defined.

Lemma input_image_unchanged_witness :
  exists count overlay h',
    count_particles putText_dot 0%nat 10 [block_with_crack] = Some ((count, overlay), h') /\
    nth_error h' 0%nat = nth_error [block_with_crack] 0%nat /\
    overlay <> 0%nat /\
    nth_error [block_with_crack] overlay = None /\
    forall l, (l < length [block_with_crack])%nat ->
              nth_error h' l = nth_error [block_with_crack] l.
Proof.
  eexists. eexists. eexists. split; [vm_compute; reflexivity|].
  apply (input_image_unchanged putText_dot 0%nat 10 [block_with_crack] 1).
  vm_compute. reflexivity.
Defined.

Lemma overlay_without_regions_witness :
  exists overlay h',
    count_particles putText_dot 0%nat 30 [block_with_crack] = Some ((0, overlay), h') /\
    nth_error [block_with_crack] overlay = None /\
    (exists o, nth_error h' overlay = Some o) /\
    (0 = 0 -> nth_error h' overlay = nth_error [block_with_crack] 0%nat).
Proof.
  eexists. eexists. split; [vm_compute; reflexivity|].
  apply (overlay_without_regions putText_dot 0%nat 30 [block_with_crack] 0).
  vm_compute. reflexivity.
Defined.

(** * Further properties of the pipeline *)

(** ** [specimen_mask] *)

(** On a non-empty image [specimen_mask] returns: [np.argmax] is only
    reached with at least one component.  The mask has the shape of the
    image and holds only 0 and 255.  (An empty array is rejected by
    [cv2.cvtColor].) *)
Theorem specimen_mask_returns_on_nonempty image :
  (0 < rows image)%nat -> (0 < cols image)%nat ->
  exists specimen,
    specimen_mask image = Some specimen /\
    shape specimen = shape image /\
    binary specimen /\
    (1 < cc_n_labels (specimen_threshold image) ->
     exists largest, largest_label (specimen_threshold image) = Some largest /\
                     1 <= largest < cc_n_labels (specimen_threshold image)).
Proof.
  intros _ _.
  destruct (specimen_mask_total image) as (specimen & Hs & Hr & Hc & Hb).
  exists specimen. split; [exact Hs|].
  split; [unfold shape; congruence|]. split; [exact Hb|].
  intros Hn. unfold largest_label.
  destruct (argmax_total (skipn 1 (cc_areas (specimen_threshold image)))) as (i & Hi).
  { intros Hnil. pose proof (skipn1_areas_length (specimen_threshold image)) as Hl.
    rewrite Hnil in Hl. simpl in Hl. lia. }
  rewrite Hi. exists (1 + i). split; [reflexivity|].
  apply argmax_range in Hi. rewrite skipn1_areas_length in Hi. lia.
Qed.

Lemma specimen_mask_returns_on_nonempty_witness :
  (0 < rows two_blocks)%nat /\ (0 < cols two_blocks)%nat /\
  exists specimen,
    specimen_mask two_blocks = Some specimen /\
    shape specimen = shape two_blocks /\
    binary specimen /\
    (1 < cc_n_labels (specimen_threshold two_blocks) ->
     exists largest, largest_label (specimen_threshold two_blocks) = Some largest /\
                     1 <= largest < cc_n_labels (specimen_threshold two_blocks)).
Proof.
  assert (Hr : (0 < rows two_blocks)%nat) by (apply Nat.ltb_lt; reflexivity).
  assert (Hc : (0 < cols two_blocks)%nat) by (apply Nat.ltb_lt; reflexivity).
  split; [exact Hr|]. split; [exact Hc|].
  exact (specimen_mask_returns_on_nonempty two_blocks Hr Hc).
Defined.

Lemma argmax_from_spec l :
  forall pre bi bv,
    (bi < length pre)%nat -> nth bi pre 0 = bv ->
    (forall j, (j < length pre)%nat -> nth j pre 0 <= bv) ->
    (forall j, (j < bi)%nat -> nth j pre 0 < bv) ->
    exists r,
      np.argmax_from (Z.of_nat bi) bv (Z.of_nat (length pre)) l = Z.of_nat r /\
      (r < length (pre ++ l))%nat /\
      (forall j, (j < length (pre ++ l))%nat -> nth j (pre ++ l) 0 <= nth r (pre ++ l) 0) /\
      (forall j, (j < r)%nat -> nth j (pre ++ l) 0 < nth r (pre ++ l) 0).
Proof.
  induction l as [|v l IH]; intros pre bi bv Hbi Hbv Hmax Hfirst.
  - exists bi. rewrite app_nil_r. cbn [np.argmax_from]. subst bv. auto.
  - cbn [np.argmax_from].
    assert (Hlen : Z.of_nat (length pre) + 1 = Z.of_nat (length (pre ++ [v])))
      by (rewrite length_app; simpl; lia).
    rewrite Hlen.
    replace (pre ++ v :: l) with ((pre ++ [v]) ++ l) by (now rewrite <- app_assoc).
    destruct (bv <? v) eqn:E.
    + apply Z.ltb_lt in E.
      replace (Z.of_nat (length pre)) with (Z.of_nat (length pre)) by reflexivity.
      apply (IH (pre ++ [v]) (length pre) v).
      * rewrite length_app. simpl. lia.
      * rewrite app_nth2 by lia. now rewrite Nat.sub_diag.
      * intros j Hj. rewrite length_app in Hj. simpl in Hj.
        destruct (Nat.eq_dec j (length pre)) as [->|Hne].
        -- rewrite app_nth2 by lia. rewrite Nat.sub_diag. simpl. lia.
        -- rewrite app_nth1 by lia. specialize (Hmax j ltac:(lia)). lia.
      * intros j Hj. rewrite app_nth1 by lia. specialize (Hmax j Hj). lia.
    + apply Z.ltb_ge in E.
      apply (IH (pre ++ [v]) bi bv).
      * rewrite length_app. simpl. lia.
      * now rewrite app_nth1 by lia.
      * intros j Hj. rewrite length_app in Hj. simpl in Hj.
        destruct (Nat.eq_dec j (length pre)) as [->|Hne].
        -- rewrite app_nth2 by lia. rewrite Nat.sub_diag. simpl. lia.
        -- rewrite app_nth1 by lia. apply Hmax. lia.
      * intros j Hj. rewrite app_nth1 by lia. now apply Hfirst.
Qed.

Lemma argmax_spec l i :
  np.argmax l = Some i ->
  0 <= i < Z.of_nat (length l) /\
  (forall j, (j < length l)%nat -> nth j l 0 <= nth (Z.to_nat i) l 0) /\
  (forall j, (j < Z.to_nat i)%nat -> nth j l 0 < nth (Z.to_nat i) l 0).
Proof.
  destruct l as [|v l]; [discriminate|]. cbn [np.argmax]. intros [= <-].
  destruct (argmax_from_spec l [v] 0%nat v) as (r & Hr & Hlt & Hmax & Hfirst);
    try (simpl; lia); try reflexivity.
  - intros j Hj. simpl in Hj. replace j with 0%nat by lia. simpl. lia.
  - change (Z.of_nat 0) with 0 in Hr. change (Z.of_nat (length [v])) with 1 in Hr.
    rewrite Hr. rewrite Nat2Z.id. change ([v] ++ l) with (v :: l) in *.
    split; [lia|]. split; assumption.
Qed.

Lemma nth_skipn1 (l : list Z) j : nth j (skipn 1 l) 0 = nth (S j) l 0.
Proof. destruct l; [now destruct j | reflexivity]. Qed.

(** The selected component is a largest one, and the first such in label
    order: no label has a larger area, and every smaller label has a
    strictly smaller area. *)
Theorem largest_label_is_largest th largest :
  largest_label th = Some largest ->
  1 <= largest < cc_n_labels th /\
  (forall l, 1 <= l < cc_n_labels th ->
     area_of (cc_labels th) l <= area_of (cc_labels th) largest) /\
  (forall l, 1 <= l < largest ->
     area_of (cc_labels th) l < area_of (cc_labels th) largest).
Proof.
  unfold largest_label.
  destruct (np.argmax (skipn 1 (cc_areas th))) as [i|] eqn:Ea; [|discriminate].
  intros E. assert (El : largest = 1 + i) by congruence. subst largest. clear E.
  apply argmax_spec in Ea. destruct Ea as (Hi & Hmax & Hfirst).
  pose proof (skipn1_areas_length th) as Hlen. rewrite Hlen in Hi.
  assert (Harea : forall l, 1 <= l < cc_n_labels th ->
            nth (Z.to_nat (l - 1)) (skipn 1 (cc_areas th)) 0 = area_of (cc_labels th) l).
  { intros l Hl. rewrite nth_skipn1. rewrite <- cc_areas_nth by lia. f_equal. lia. }
  split; [lia|]. split.
  - intros l Hl. rewrite <- (Harea l Hl), <- (Harea (1 + i)) by lia.
    replace (1 + i - 1) with i by lia. apply Hmax. lia.
  - intros l Hl. rewrite <- (Harea l) by lia. rewrite <- (Harea (1 + i)) by lia.
    replace (1 + i - 1) with i by lia. apply Hfirst. lia.
Qed.

Lemma largest_label_is_largest_witness :
  cc_n_labels (specimen_threshold two_blocks) = 3 /\
  area_of (cc_labels (specimen_threshold two_blocks)) 1 = 9 /\
  area_of (cc_labels (specimen_threshold two_blocks)) 2 = 60 /\
  largest_label (specimen_threshold two_blocks) = Some 2 /\
  1 <= 2 < cc_n_labels (specimen_threshold two_blocks) /\
  (forall l, 1 <= l < cc_n_labels (specimen_threshold two_blocks) ->
     area_of (cc_labels (specimen_threshold two_blocks)) l <=
     area_of (cc_labels (specimen_threshold two_blocks)) 2) /\
  (forall l, 1 <= l < 2 ->
     area_of (cc_labels (specimen_threshold two_blocks)) l <
     area_of (cc_labels (specimen_threshold two_blocks)) 2).
Proof.
  assert (H : largest_label (specimen_threshold two_blocks) = Some 2)
    by (vm_compute; reflexivity).
  split; [vm_compute; reflexivity|].
  split; [vm_compute; reflexivity|].
  split; [vm_compute; reflexivity|].
  split; [exact H|].
  exact (largest_label_is_largest (specimen_threshold two_blocks) 2 H).
Defined.

Lemma specimen_mask_cases image specimen :
  specimen_mask image = Some specimen ->
  (cc_n_labels (specimen_threshold image) <= 1 /\ specimen = specimen_threshold image) \/
  (exists i,
     0 <= i < cc_n_labels (specimen_threshold image) - 1 /\
     np.argmax (skipn 1 (cc_areas (specimen_threshold image))) = Some i /\
     specimen =
       Nat.iter 2 (erode1 (kernel_offsets (getStructuringElement_ELLIPSE (9, 9)%nat)))
         (Nat.iter 2 (dilate1 (kernel_offsets (getStructuringElement_ELLIPSE (9, 9)%nat)))
            (component_mask (specimen_threshold image) (1 + i)))).
Proof.
  rewrite specimen_mask_unfold. cbv zeta.
  destruct (cc_n_labels (specimen_threshold image) <=? 1) eqn:E.
  - apply Z.leb_le in E. intros Es. left. split; [exact E | congruence].
  - destruct (np.argmax (skipn 1 (cc_areas (specimen_threshold image)))) as [i|] eqn:Ea;
      [|discriminate].
    intros Es. right. exists i.
    pose proof (argmax_range _ _ Ea) as Hi. rewrite skipn1_areas_length in Hi.
    split; [exact Hi|]. split; [reflexivity|].
    symmetry. injection Es as Es. exact Es.
Qed.

(** The specimen mask is empty exactly in the degenerate case, when
    thresholding leaves no foreground. *)
Theorem specimen_mask_empty_iff_degenerate image specimen :
  specimen_mask image = Some specimen ->
  ((forall y x, ~ fg specimen y x) <-> cc_n_labels (specimen_threshold image) <= 1).
Proof.
  intros Hs. apply specimen_mask_cases in Hs.
  destruct Hs as [(Hn & ->) | (i & Hi & Ea & ->)].
  - split; [intros _; exact Hn|].
    intros _ y x Hfg. pose proof (cc_label_range _ y x Hfg). lia.
  - split; [|lia]. intros Hempty. exfalso.
    destruct (cc_label_used (specimen_threshold image) (1 + i) ltac:(lia))
      as (y & x & Hfg & El).
    apply (Hempty y x).
    apply closing_extensive; [apply ellipse9_symmetric | |].
    + apply binary_u8, component_mask_binary.
    + apply component_mask_fg; [lia | tauto].
Qed.

Lemma specimen_mask_empty_iff_degenerate_witness :
  specimen_mask black8 = Some (specimen_threshold black8) /\
  ((forall y x, ~ fg (specimen_threshold black8) y x) <->
   cc_n_labels (specimen_threshold black8) <= 1).
Proof.
  assert (H : specimen_mask black8 = Some (specimen_threshold black8))
    by (vm_compute; reflexivity).
  split; [exact H|].
  exact (specimen_mask_empty_iff_degenerate black8 (specimen_threshold black8) H).
Defined.

(** *** How far the hole filling reaches *)

Lemma offsets_within_spec r offs dy dx :
  offsets_within r offs = true -> In (dy, dx) offs -> Z.abs dy <= r /\ Z.abs dx <= r.
Proof.
  unfold offsets_within. rewrite forallb_forall. intros H Hin.
  specialize (H _ Hin). cbn beta iota in H.
  apply andb_true_iff in H. now rewrite !Z.leb_le in H.
Qed.

Lemma dilate_near r offs n m y x :
  offsets_within r offs = true ->
  fg (Nat.iter n (dilate1 offs) m) y x ->
  exists y' x', fg m y' x' /\ dist8 y x y' x' <= Z.of_nat n * r.
Proof.
  intros Hr. revert y x. induction n as [|n IH]; intros y x Hfg.
  - exists y, x. split; [assumption|]. unfold dist8. lia.
  - change (Nat.iter (S n) (dilate1 offs) m)
      with (dilate1 offs (Nat.iter n (dilate1 offs) m)) in Hfg.
    apply dilate1_fg in Hfg. destruct Hfg as (dy & dx & Hin & Hfg).
    apply (offsets_within_spec r) in Hin; [|assumption].
    apply IH in Hfg. destruct Hfg as (y' & x' & Hfg & Hd).
    exists y', x'. split; [assumption|]. unfold dist8 in *. lia.
Qed.

Lemma erode_shrinks offs n m y x :
  In (0, 0) offs -> u8 m -> fg (Nat.iter n (erode1 offs) m) y x -> fg m y x.
Proof.
  intros H0 Hu. induction n as [|n IH]; intros Hfg; [assumption|].
  change (Nat.iter (S n) (erode1 offs) m)
    with (erode1 offs (Nat.iter n (erode1 offs) m)) in Hfg.
  apply IH. apply erode1_fg in Hfg; auto.
  apply u8_iter; [|assumption]. intros a. apply u8_erode1.
Qed.

Lemma ellipse9_within :
  offsets_within 4 (kernel_offsets (getStructuringElement_ELLIPSE (9, 9)%nat)) = true.
Proof. vm_compute. reflexivity. Qed.

Lemma ellipse9_anchor :
  In (0, 0) (kernel_offsets (getStructuringElement_ELLIPSE (9, 9)%nat)).
Proof. vm_compute. tauto. Qed.

(** Outside the degenerate case every pixel of the specimen mask lies at
    most 8 rows and 8 columns away from a pixel of the selected component:
    the closing fills holes and gaps, it does not reach farther. *)
Theorem specimen_mask_near_component image specimen y x :
  1 < cc_n_labels (specimen_threshold image) ->
  specimen_mask image = Some specimen ->
  fg specimen y x ->
  exists largest y' x',
    largest_label (specimen_threshold image) = Some largest /\
    fg (specimen_threshold image) y' x' /\
    mget 0 (cc_labels (specimen_threshold image)) y' x' = largest /\
    dist8 y x y' x' <= 8.
Proof.
  intros Hn Hs Hfg. apply specimen_mask_cases in Hs.
  destruct Hs as [(Hn' & _) | (i & Hi & Ea & ->)]; [lia|].
  apply erode_shrinks in Hfg; [|apply ellipse9_anchor|].
  2:{ apply u8_iter; [intros a; apply u8_dilate1|].
      apply binary_u8, component_mask_binary. }
  apply (dilate_near 4) in Hfg; [|apply ellipse9_within].
  destruct Hfg as (y' & x' & Hfg & Hd).
  apply component_mask_fg in Hfg; [|lia].
  exists (1 + i), y', x'. unfold largest_label. rewrite Ea.
  split; [reflexivity|]. change (Z.of_nat 2 * 4) with 8 in Hd. tauto.
Qed.

Lemma specimen_mask_near_component_witness :
  1 < cc_n_labels (specimen_threshold disc_at_border) /\
  exists specimen,
    specimen_mask disc_at_border = Some specimen /\ fg specimen 0 0 /\
    exists largest y' x',
      largest_label (specimen_threshold disc_at_border) = Some largest /\
      fg (specimen_threshold disc_at_border) y' x' /\
      mget 0 (cc_labels (specimen_threshold disc_at_border)) y' x' = largest /\
      dist8 0 0 y' x' <= 8.
Proof.
  assert (Hn : 1 < cc_n_labels (specimen_threshold disc_at_border))
    by (vm_compute; reflexivity).
  split; [exact Hn|].
  eexists. split; [vm_compute; reflexivity|].
  assert (Hfg : forall m : Mat Z, mget 0 m 0 0 = 255 -> fg m 0 0)
    by (intros m E; unfold fg; rewrite E; discriminate).
  split; [apply Hfg; vm_compute; reflexivity|].
  eapply (specimen_mask_near_component disc_at_border _ 0 0 Hn).
  - vm_compute. reflexivity.
  - apply Hfg. vm_compute. reflexivity.
Defined.

(** ** [crack_mask] *)

(** Given a specimen mask of the shape of a non-empty image, [crack_mask]
    returns, and the crack mask has that shape again and holds 8-bit
    values: [cv2.bitwise_and], the one call that checks the shapes of two
    arrays, receives arrays of equal shape, since the colour conversion,
    CLAHE, the black-hat and the thresholding all keep the shape. *)
Theorem crack_mask_returns_on_matching_shape image specimen :
  (0 < rows image)%nat -> (0 < cols image)%nat ->
  u8 specimen -> shape specimen = shape image ->
  exists cracks,
    crack_mask image specimen = Some cracks /\
    shape cracks = shape image /\
    u8 cracks /\
    shape (crack_candidates image) = shape specimen.
Proof.
  intros _ _ _ Hs. unfold shape in Hs. injection Hs as Hs1 Hs2.
  destruct (crack_mask_total image specimen Hs1 Hs2) as (c & Hc & Hrc & Hcc & Hu & _).
  destruct (crack_candidates_shape image) as [Hr Hcl].
  exists c. split; [exact Hc|]. split; [unfold shape; congruence|].
  split; [exact Hu|]. unfold shape. congruence.
Qed.

Lemma crack_mask_returns_on_matching_shape_witness :
  exists specimen cracks,
    specimen_mask block_with_crack = Some specimen /\
    crack_mask block_with_crack specimen = Some cracks /\
    shape cracks = shape block_with_crack /\
    u8 cracks /\
    shape (crack_candidates block_with_crack) = shape specimen.
Proof.
  destruct (specimen_mask_total block_with_crack) as (specimen & Hs & Hr & Hc & Hb).
  assert (Hr0 : (0 < rows block_with_crack)%nat) by (apply Nat.ltb_lt; reflexivity).
  assert (Hc0 : (0 < cols block_with_crack)%nat) by (apply Nat.ltb_lt; reflexivity).
  assert (Hsh : shape specimen = shape block_with_crack) by (unfold shape; congruence).
  destruct (crack_mask_returns_on_matching_shape block_with_crack specimen Hr0 Hc0
              (binary_u8 specimen Hb) Hsh) as (cracks & H1 & H2 & H3 & H4).
  exists specimen, cracks.
  split; [exact Hs|]. split; [exact H1|]. split; [exact H2|]. split; [exact H3 | exact H4].
Defined.

Lemma land_255 a b : a = 255 -> b = 255 -> Z.land a b = 255.
Proof. intros -> ->. reflexivity. Qed.

Lemma binary_fg m y x : binary m -> fg m y x -> mget 0 m y x = 255.
Proof. intros Hb Hfg. destruct (Hb y x) as [E|E]; [contradiction | exact E]. Qed.

Lemma cross3_anchor : In (0, 0) cross3.
Proof. simpl. tauto. Qed.

(** The thickening only adds pixels: every crack candidate inside the
    specimen is in the returned crack mask. *)
Theorem crack_mask_keeps_candidates image specimen cracks y x :
  binary specimen ->
  crack_mask image specimen = Some cracks ->
  fg (crack_candidates image) y x -> fg specimen y x -> fg cracks y x.
Proof.
  intros Hb Hcr Hcand Hsp. rewrite crack_mask_unfold in Hcr.
  destruct (bitwise_and (crack_candidates image) specimen) as [inter|] eqn:Hand;
    [|discriminate].
  assert (Ec : cracks = Nat.iter 2 (erode1 cross3)
                 (Nat.iter 2 (dilate1 cross3) (dilate1 cross3 inter))).
  { injection Hcr as Hcr. symmetry. exact Hcr. }
  subst cracks.
  assert (Hu : u8 inter).
  { eapply bitwise_and_u8_l; [apply crack_candidates_binary | exact Hand]. }
  assert (Hi : fg inter y x).
  { apply bitwise_and_Some in Hand. destruct Hand as (_ & _ & _ & _ & Hget).
    unfold fg. rewrite Hget.
    rewrite (land_255 _ _ (binary_fg _ y x (crack_candidates_binary image) Hcand)
                          (binary_fg _ y x Hb Hsp)).
    discriminate. }
  apply closing_extensive; [apply cross3_symmetric | now apply u8_dilate1 |].
  apply dilate1_extensive; [exact Hu | apply cross3_anchor | exact Hi].
Qed.

Lemma crack_mask_keeps_candidates_witness :
  exists specimen cracks,
    specimen_mask block_with_crack = Some specimen /\
    crack_mask block_with_crack specimen = Some cracks /\
    fg (crack_candidates block_with_crack) 3 4 /\ fg specimen 3 4 /\ fg cracks 3 4.
Proof.
  destruct (specimen_mask_total block_with_crack) as (specimen & Hs & Hr & Hc & Hb).
  destruct (crack_mask_total block_with_crack specimen Hr Hc) as (cracks & Hcr & _).
  exists specimen, cracks. split; [exact Hs|]. split; [exact Hcr|].
  assert (Hfg : forall m : Mat Z, mget 0 m 3 4 = 255 -> fg m 3 4)
    by (intros m E; unfold fg; rewrite E; discriminate).
  assert (H1 : fg (crack_candidates block_with_crack) 3 4)
    by (apply Hfg; vm_compute; reflexivity).
  assert (H2 : fg specimen 3 4).
  { apply Hfg. cut (option_map (fun m => mget 0 m 3 4) (Some specimen) = Some 255).
    - cbn [option_map]. congruence.
    - rewrite <- Hs. vm_compute. reflexivity. }
  split; [exact H1|]. split; [exact H2|].
  exact (crack_mask_keeps_candidates block_with_crack specimen cracks 3 4 Hb Hcr H1 H2).
Defined.

(** ** [count_particles]: the particle mask *)

(** For a non-empty image the three masks are built, and the particle mask
    that is labelled has the image's shape and lies inside the specimen and
    outside the cracks: the opening removes pixels, it adds none. *)
Theorem particles_avoid_cracks image :
  (0 < rows image)%nat -> (0 < cols image)%nat ->
  exists specimen cracks particles,
    specimen_mask image = Some specimen /\
    crack_mask image specimen = Some cracks /\
    particle_mask image = Some particles /\
    shape particles = shape image /\
    binary particles /\
    forall y x, fg particles y x -> fg specimen y x /\ ~ fg cracks y x.
Proof.
  intros _ _.
  destruct (specimen_mask_total image) as (specimen & Hs & Hr & Hc & Hb).
  destruct (crack_mask_total image specimen Hr Hc) as (cracks & Hcr & Hrc & Hcc & _ & Hbc).
  destruct (particle_mask_total image) as (particles & Hp & Hrp & Hcp).
  exists specimen, cracks, particles.
  split; [exact Hs|]. split; [exact Hcr|]. split; [exact Hp|].
  split; [unfold shape; congruence|]. split.
  - pose proof Hp as Hp'. rewrite particle_mask_unfold, Hs, Hcr in Hp'.
    destruct (bitwise_and specimen (bitwise_not cracks)) as [p|] eqn:Hand; [|discriminate].
    assert (Ep : particles = dilate1 cross3 (erode1 cross3 p)).
    { injection Hp' as Hp'. symmetry. exact Hp'. }
    subst particles. apply binary_dilate1, binary_erode1.
    eapply binary_bitwise_and; [exact Hb | apply binary_bitwise_not; auto | exact Hand].
  - intros y x Hfg. exact (particles_in_specimen image _ _ _ y x Hs Hcr Hp Hfg).
Qed.

Lemma particles_avoid_cracks_witness :
  (0 < rows block_with_crack)%nat /\ (0 < cols block_with_crack)%nat /\
  exists specimen cracks particles,
    specimen_mask block_with_crack = Some specimen /\
    crack_mask block_with_crack specimen = Some cracks /\
    particle_mask block_with_crack = Some particles /\
    shape particles = shape block_with_crack /\
    binary particles /\
    forall y x, fg particles y x -> fg specimen y x /\ ~ fg cracks y x.
Proof.
  assert (Hr : (0 < rows block_with_crack)%nat) by (apply Nat.ltb_lt; reflexivity).
  assert (Hc : (0 < cols block_with_crack)%nat) by (apply Nat.ltb_lt; reflexivity).
  split; [exact Hr|]. split; [exact Hc|].
  exact (particles_avoid_cracks block_with_crack Hr Hc).
Defined.

Lemma land_lxor_clip s c :
  s = 0 \/ s = 255 -> 0 <= c <= 255 ->
  Z.land s (Z.lxor (Z.land c s) 255) = Z.land s (Z.lxor c 255).
Proof.
  intros [-> | ->] Hc; [now rewrite !Z.land_0_l|].
  f_equal. f_equal. change 255 with (Z.ones 8). rewrite Z.land_ones by lia.
  apply Z.mod_small. change (2 ^ 8) with 256. lia.
Qed.

(** Crack pixels outside the specimen do not matter: removing the cracks
    from the specimen gives the same mask as removing only the cracks that
    lie inside the specimen. *)
Theorem crack_spill_is_harmless image specimen cracks :
  specimen_mask image = Some specimen ->
  crack_mask image specimen = Some cracks ->
  exists clipped,
    bitwise_and cracks specimen = Some clipped /\
    (forall y x, fg clipped y x -> fg specimen y x) /\
    bitwise_and specimen (bitwise_not clipped) = bitwise_and specimen (bitwise_not cracks).
Proof.
  intros Hs Hcr.
  destruct (specimen_mask_total image) as (sp & Hs' & Hr & Hc & Hb).
  assert (sp = specimen) by congruence. subst sp.
  destruct (crack_mask_total image specimen Hr Hc) as (cr & Hcr' & Hrc & Hcc & Hu & _).
  assert (cr = cracks) by congruence. subst cr.
  destruct (bitwise_and_total cracks specimen) as (clipped & Hand); [congruence | congruence |].
  exists clipped. split; [exact Hand|]. split.
  - intros y x Hfg. now destruct (bitwise_and_fg _ _ _ y x Hand Hfg).
  - pose proof (bitwise_and_Some _ _ _ Hand) as (_ & _ & Hr' & Hc' & Hget).
    unfold bitwise_and.
    replace (same_shape specimen (bitwise_not clipped)) with true
      by (symmetry; apply same_shape_iff; simpl; split; congruence).
    replace (same_shape specimen (bitwise_not cracks)) with true
      by (symmetry; apply same_shape_iff; simpl; split; congruence).
    f_equal. apply build_ext. intros y x Hy Hx.
    rewrite !mget_bitwise_not.
    replace (inside clipped y x) with true by (symmetry; apply inside_iff; lia).
    replace (inside cracks y x) with true by (symmetry; apply inside_iff; lia).
    rewrite Hget. apply land_lxor_clip; [apply Hb | apply Hu].
Qed.

Lemma crack_spill_is_harmless_witness :
  exists specimen cracks clipped,
    specimen_mask block_with_crack = Some specimen /\
    crack_mask block_with_crack specimen = Some cracks /\
    bitwise_and cracks specimen = Some clipped /\
    (forall y x, fg clipped y x -> fg specimen y x) /\
    bitwise_and specimen (bitwise_not clipped) = bitwise_and specimen (bitwise_not cracks).
Proof.
  destruct (specimen_mask_total block_with_crack) as (specimen & Hs & Hr & Hc & Hb).
  destruct (crack_mask_total block_with_crack specimen Hr Hc) as (cracks & Hcr & _).
  destruct (crack_spill_is_harmless block_with_crack specimen cracks Hs Hcr)
    as (clipped & H1 & H2 & H3).
  exists specimen, cracks, clipped. repeat split; assumption.
Defined.

(** ** [count_particles]: areas and the count *)

Lemma cc_area_pos m l : 1 <= l < cc_n_labels m -> 1 <= area_of (cc_labels m) l.
Proof.
  intros Hl. destruct (cc_label_used m l Hl) as (y & x & Hfg & E).
  unfold area_of.
  assert (Hin : In (y, x) (filter (fun '(y, x) => mget 0 (cc_labels m) y x =? l)
                             (coords (cc_labels m)))).
  { apply filter_In. split; [|now apply Z.eqb_eq].
    apply In_coords. rewrite (inside_same _ m) by reflexivity. now apply fg_inside. }
  destruct (filter _ _); [contradiction | simpl; lia].
Qed.

Lemma filter_all {A} (p : A -> bool) l : (forall a, In a l -> p a = true) -> filter p l = l.
Proof.
  induction l as [|a l IH]; intros H; simpl; [reflexivity|].
  rewrite (H a (or_introl eq_refl)). f_equal. apply IH. intros; apply H; now right.
Qed.

Lemma length_coords {A} (m : Mat A) :
  Z.of_nat (length (coords m)) = Z.of_nat (rows m) * Z.of_nat (cols m).
Proof.
  unfold coords. generalize (zrange (rows m)) (length_zrange (rows m)).
  intros l <-. induction l as [|y l IH]; [reflexivity|].
  cbn [flat_map length]. rewrite length_app, length_map, length_zrange. lia.
Qed.

Lemma filter_none {A} (l : list A) : filter (fun _ => false) l = [].
Proof. induction l; simpl; auto. Qed.

Lemma split_count {A} (p q : A -> bool) l :
  (forall a, In a l -> p a = true -> q a = false) ->
  (length (filter p l) + length (filter q l))%nat =
  length (filter (fun a => p a || q a) l).
Proof.
  induction l as [|a l IH]; intros H; [reflexivity|]. cbn [filter].
  assert (IH' := IH (fun b Hb => H b (or_intror Hb))).
  pose proof (H a (or_introl eq_refl)) as Ha.
  destruct (p a); cbn [orb length].
  - rewrite (Ha eq_refl). lia.
  - destruct (q a); cbn [length]; lia.
Qed.

Lemma area_sum {A} (key : A -> Z) cs ls :
  NoDup ls ->
  sum_Z (map (fun l => Z.of_nat (length (filter (fun c => key c =? l) cs))) ls) =
  Z.of_nat (length (filter (fun c => existsb (Z.eqb (key c)) ls) cs)).
Proof.
  induction ls as [|l ls IH]; intros Hnd.
  - cbn [map sum_Z fold_right existsb]. now rewrite filter_none.
  - inversion Hnd as [|? ? Hnin Hnd']; subst.
    cbn [map existsb]. unfold sum_Z in *. cbn [fold_right]. rewrite (IH Hnd').
    rewrite <- Nat2Z.inj_add. f_equal. apply split_count.
    intros c _ E. apply Z.eqb_eq in E. subst l.
    destruct (existsb (Z.eqb (key c)) ls) eqn:Ex; [|reflexivity].
    apply existsb_exists in Ex. destruct Ex as (l' & Hin & E').
    apply Z.eqb_eq in E'. subst l'. contradiction.
Qed.

(** Distinct labels cover disjoint sets of pixels. *)
Lemma areas_bounded labels ls :
  NoDup ls ->
  sum_Z (map (area_of labels) ls) <= Z.of_nat (rows labels) * Z.of_nat (cols labels).
Proof.
  intros Hnd. rewrite <- length_coords.
  pose proof (area_sum (fun c : Z * Z => mget 0 labels (fst c) (snd c)) (coords labels) ls Hnd)
    as Hs.
  assert (Hm : map (area_of labels) ls =
               map (fun l => Z.of_nat (length (filter
                      (fun c : Z * Z => mget 0 labels (fst c) (snd c) =? l) (coords labels)))) ls).
  { apply map_ext. intros l. unfold area_of. f_equal. f_equal.
    apply filter_ext. now intros [y x]. }
  rewrite Hm, Hs. apply inj_le. apply length_filter_le.
Qed.

Lemma sum_at_least (f : Z -> Z) m ls :
  (forall l, In l ls -> m <= f l) -> Z.of_nat (length ls) * m <= sum_Z (map f ls).
Proof.
  induction ls as [|l ls IH]; intros H; [simpl; lia|].
  cbn [map length]. unfold sum_Z in *. cbn [fold_right].
  pose proof (H l (or_introl eq_refl)).
  specialize (IH (fun a Ha => H a (or_intror Ha))). lia.
Qed.

Lemma NoDup_range1 n : NoDup (range1 n).
Proof.
  unfold range1. apply Injective_map_NoDup; [|apply seq_NoDup].
  intros a b. apply Nat2Z.inj.
Qed.

Section Counting.
Variable putText : Mat BGR -> string -> Z * Z -> Z -> Q -> BGR -> Z -> Mat BGR.

(** With [min_area <= 1] nothing is filtered out: the count is the number
    of components of the particle mask, since a component has at least one
    pixel. *)
Theorem every_component_counted image h img min_area :
  nth_error h image = Some img -> min_area <= 1 ->
  exists particles overlay h',
    particle_mask img = Some particles /\
    count_particles putText image min_area h =
      Some ((cc_n_labels particles - 1, overlay), h').
Proof.
  intros Himg Hmin.
  destruct (count_particles_total putText image min_area h img Himg)
    as (p & ov & Hp & _ & Hrun).
  exists p. do 2 eexists. split; [exact Hp|]. rewrite Hrun.
  rewrite qualifies_area, filter_all.
  - rewrite length_range1. pose proof (cc_n_labels_pos p).
    replace (Z.max 0 (cc_n_labels p - 1)) with (cc_n_labels p - 1) by lia. reflexivity.
  - intros l Hl. apply In_range1 in Hl. pose proof (cc_area_pos p l Hl).
    apply negb_true_iff, Z.ltb_ge. lia.
Qed.

(** The counted regions are disjoint and each has at least [min_area]
    pixels, so [count * min_area] cannot exceed the number of pixels of the
    image; a [min_area] above that number gives the count 0. *)
Theorem count_times_min_area_bounded image h img min_area :
  nth_error h image = Some img ->
  exists count overlay h',
    count_particles putText image min_area h = Some ((count, overlay), h') /\
    count * min_area <= Z.of_nat (rows img) * Z.of_nat (cols img) /\
    (Z.of_nat (rows img) * Z.of_nat (cols img) < min_area -> count = 0).
Proof.
  intros Himg.
  destruct (count_particles_total putText image min_area h img Himg)
    as (p & ov & Hp & _ & Hrun).
  destruct (particle_mask_total img) as (p' & Hp' & Hr & Hc).
  assert (p' = p) by congruence. subst p'.
  do 3 eexists. split; [exact Hrun|].
  rewrite qualifies_area.
  set (kept := filter _ (range1 (cc_n_labels p))).
  assert (Hnd : NoDup kept) by (apply NoDup_filter, NoDup_range1).
  assert (Hge : forall l, In l kept -> min_area <= area_of (cc_labels p) l).
  { intros l Hl. apply filter_In in Hl. destruct Hl as [_ Hl].
    apply negb_true_iff, Z.ltb_ge in Hl. exact Hl. }
  pose proof (sum_at_least (area_of (cc_labels p)) min_area kept Hge) as H1.
  pose proof (areas_bounded (cc_labels p) kept Hnd) as H2.
  destruct (cc_shape p) as [Hr' Hc']. rewrite Hr', Hc', Hr, Hc in H2.
  split; [lia|]. intros Hbig.
  destruct kept as [|l kept']; [reflexivity|]. exfalso.
  cbn [length] in H1. rewrite Nat2Z.inj_succ in H1. nia.
Qed.

(** An invariant of the drawing loop: whatever [cv2.putText] preserves
    holds for the overlay when it holds for the image. *)
Theorem overlay_invariant (P : Mat BGR -> Prop) image min_area h img count overlay h' :
  (forall o text org font scale color thickness,
     P o -> P (putText o text org font scale color thickness)) ->
  nth_error h image = Some img -> P img ->
  count_particles putText image min_area h = Some ((count, overlay), h') ->
  exists ov, nth_error h' overlay = Some ov /\ P ov.
Proof.
  intros Hput Himg HP. rewrite count_particles_unfold, Himg.
  destruct (particle_mask img) as [p|]; [|discriminate].
  set (ls := filter _ _). generalize ls. clear ls. intros ls.
  destruct (draw_all putText (cc_labels p) ls 0 img) as [ov|] eqn:Hd; [|discriminate].
  intros E. assert (overlay = length h /\ h' = h ++ [ov]) as [-> ->].
  { injection E as _ E1 E2. split; congruence. }
  exists ov. rewrite nth_error_app2 by lia. rewrite Nat.sub_diag.
  split; [reflexivity|]. clear E Himg.
  revert Hd HP. generalize 0 as c. generalize img as o.
  induction ls as [|l ls IH]; intros o c Hd HP.
  - simpl in Hd. congruence.
  - cbn [draw_all] in Hd. destruct (centroid (cc_labels p) l) as [ctr|]; [|discriminate].
    apply (IH _ _ Hd). unfold draw. apply Hput. exact HP.
Qed.

End Counting.

Lemma every_component_counted_witness :
  nth_error [block_with_crack] 0%nat = Some block_with_crack /\ 1 <= 1 /\
  exists particles overlay h',
    particle_mask block_with_crack = Some particles /\
    count_particles putText_dot 0%nat 1 [block_with_crack] =
      Some ((cc_n_labels particles - 1, overlay), h').
Proof.
  split; [reflexivity|]. split; [lia|].
  apply (every_component_counted putText_dot 0%nat [block_with_crack] block_with_crack 1);
    [reflexivity | lia].
Defined.

Lemma count_times_min_area_bounded_witness :
  exists count overlay h',
    count_particles putText_dot 0%nat 20 [block_with_crack] = Some ((count, overlay), h') /\
    count * 20 <= Z.of_nat (rows block_with_crack) * Z.of_nat (cols block_with_crack) /\
    (Z.of_nat (rows block_with_crack) * Z.of_nat (cols block_with_crack) < 20 -> count = 0).
Proof.
  apply (count_times_min_area_bounded putText_dot 0%nat [block_with_crack] block_with_crack 20).
  reflexivity.
Defined.

Lemma putText_dot_shape o text org font scale color thickness :
  shape o = shape block_with_crack ->
  shape (putText_dot o text org font scale color thickness) = shape block_with_crack.
Proof. intros H. exact H. Qed.

Lemma overlay_invariant_witness :
  exists count overlay h' ov,
    count_particles putText_dot 0%nat 20 [block_with_crack] = Some ((count, overlay), h') /\
    nth_error h' overlay = Some ov /\ shape ov = shape block_with_crack.
Proof.
  destruct (count_particles_total putText_dot 0%nat 20 [block_with_crack] block_with_crack
              eq_refl) as (p & ov0 & _ & _ & Hrun).
  destruct (overlay_invariant putText_dot (fun o => shape o = shape block_with_crack)
              0%nat 20 [block_with_crack] block_with_crack _ _ _
              putText_dot_shape eq_refl eq_refl Hrun) as (ov & Hov & Hshape).
  do 3 eexists. exists ov. split; [exact Hrun|]. split; [exact Hov | exact Hshape].
Defined.

(** ** [count_particles]: where the ranks are drawn *)

Lemma sum_at_most l M : (forall v, In v l -> v <= M) -> sum_Z l <= Z.of_nat (length l) * M.
Proof.
  induction l as [|v l IH]; intros H; [simpl; lia|].
  unfold sum_Z in *. cbn [fold_right length].
  pose proof (H v (or_introl eq_refl)).
  specialize (IH (fun a Ha => H a (or_intror Ha))). lia.
Qed.

Lemma truncated_mean_range l q lo hi :
  (forall v, In v l -> lo <= v <= hi) -> truncated_mean l q -> lo <= q <= hi.
Proof.
  intros Hb [Hlen [H1 H2]].
  assert (Hlo : Z.of_nat (length l) * lo <= sum_Z l).
  { pose proof (sum_at_least (fun v => v) lo l (fun v Hv => proj1 (Hb v Hv))) as H.
    now rewrite map_id in H. }
  assert (Hhi : sum_Z l <= Z.of_nat (length l) * hi).
  { apply sum_at_most. intros v Hv. apply Hb, Hv. }
  split; nia.
Qed.

(** The centroid of a label lies between the extreme rows and the extreme
    columns of its pixels, so inside the array. *)
Theorem centroid_inside labels l cy cx :
  centroid labels l = Some (cy, cx) ->
  0 <= cy < Z.of_nat (rows labels) /\ 0 <= cx < Z.of_nat (cols labels).
Proof.
  intros Hc. apply centroid_spec in Hc.
  destruct Hc as (ys & xs & Hw & _ & _ & Hy & Hx).
  rewrite where_coords_spec in Hw. injection Hw as <- <-.
  assert (Hin : forall c, In c (filter (fun '(y, x) => mget 0 labels y x =? l) (coords labels)) ->
            0 <= fst c <= Z.of_nat (rows labels) - 1 /\
            0 <= snd c <= Z.of_nat (cols labels) - 1).
  { intros [y x] H. apply filter_In in H. destruct H as [H _].
    apply In_coords, inside_iff in H. cbn [fst snd]. lia. }
  apply (truncated_mean_range _ _ 0 (Z.of_nat (rows labels) - 1)) in Hy.
  - apply (truncated_mean_range _ _ 0 (Z.of_nat (cols labels) - 1)) in Hx; [lia|].
    intros v Hv. apply in_map_iff in Hv. destruct Hv as (c & <- & Hc). now apply Hin.
  - intros v Hv. apply in_map_iff in Hv. destruct Hv as (c & <- & Hc). now apply Hin.
Qed.

Lemma centroid_inside_witness :
  exists particles,
    particle_mask block_with_crack = Some particles /\
    centroid (cc_labels particles) 1 = Some (6, 3) /\
    0 <= 6 < Z.of_nat (rows (cc_labels particles)) /\
    0 <= 3 < Z.of_nat (cols (cc_labels particles)).
Proof.
  destruct (particle_mask block_with_crack) as [p|] eqn:Hp;
    [|exfalso; revert Hp; vm_compute; discriminate].
  exists p. split; [reflexivity|].
  assert (Hc : centroid (cc_labels p) 1 = Some (6, 3)).
  { cut (option_map (fun m => centroid (cc_labels m) 1) (Some p) = Some (Some (6, 3))).
    - cbn [option_map]. congruence.
    - rewrite <- Hp. vm_compute. reflexivity. }
  split; [exact Hc|]. exact (centroid_inside (cc_labels p) 1 6 3 Hc).
Defined.

(** ** [main] *)

Section MainProperties.
Variable putText : Mat BGR -> string -> Z * Z -> Z -> Q -> BGR -> Z -> Mat BGR.
Variable imread : string -> option (Mat BGR).
Variable imwrite : string -> Mat BGR -> option bool.

Lemma run_on_fresh_store img min_area :
  exists count ov,
    count_particles putText 0%nat min_area [img] = Some ((count, 1%nat), [img; ov]) /\
    0 <= count.
Proof.
  destruct (count_particles_total putText 0%nat min_area [img] img eq_refl)
    as (p & ov & _ & _ & Hrun).
  do 2 eexists. split; [exact Hrun | lia].
Qed.

(** Once the arguments are parsed: when [cv2.imread] returns [None],
    [main] raises [SystemExit] with the message
    [Could not read image: <path>] and has printed and written nothing;
    when it returns an image, [main] does not raise [SystemExit] any more
    (the only exception left is the one [cv2.imwrite] may raise). *)
Theorem main_exit_on_unreadable args w :
  match imread (args_image args) with
  | None =>
      main putText imread imwrite args w =
      (w, Some (SystemExit ("Could not read image: " ++ args_image args)))
  | Some img =>
      (forall message,
         snd (main putText imread imwrite args w) <> Some (SystemExit message)) /\
      (snd (main putText imread imwrite args w) = Some cv2_error ->
       exists path ov, args_save_overlay args = Some path /\ imwrite path ov = None)
  end.
Proof.
  unfold main. destruct (imread (args_image args)) as [img|] eqn:Hread; [|reflexivity].
  destruct (run_on_fresh_store img (args_min_area args)) as (count & ov & Hrun & _).
  rewrite Hrun. destruct (args_save_overlay args) as [path|]; cbn [nth_error snd].
  - destruct (imwrite path ov) as [ok|] eqn:Hw; cbn [snd].
    + split; [intros message; discriminate | discriminate].
    + split; [intros message; discriminate|]. intros _. exists path, ov. now split.
  - split; [intros message; discriminate | discriminate].
Qed.

(** For a readable image [main] prints one line, the count returned by
    [count_particles] for [--min-area], a non-negative number; it does so
    whether or not an overlay is requested and before any writing. *)
Theorem main_prints_count args w img :
  imread (args_image args) = Some img ->
  exists count overlay h',
    count_particles putText 0%nat (args_min_area args) [img] = Some ((count, overlay), h') /\
    0 <= count /\
    stdout (fst (main putText imread imwrite args w)) = (stdout w ++ [str count])%list.
Proof.
  intros Hread. unfold main. rewrite Hread.
  destruct (run_on_fresh_store img (args_min_area args)) as (count & ov & Hrun & Hpos).
  rewrite Hrun. do 3 eexists. split; [reflexivity|]. split; [exact Hpos|].
  destruct (args_save_overlay args) as [path|]; cbn [nth_error fst]; [|reflexivity].
  destruct (imwrite path ov) as [[|]|]; reflexivity.
Qed.

(** [main] writes at most one file: the overlay returned by
    [count_particles], at the [--save-overlay] path, and only when the
    option is given and [cv2.imwrite] reports success.  It raises after
    printing only if [cv2.imwrite] raises. *)
Theorem main_writes_overlay_on_request args w img :
  imread (args_image args) = Some img ->
  exists count overlay h' ov,
    count_particles putText 0%nat (args_min_area args) [img] = Some ((count, overlay), h') /\
    nth_error h' overlay = Some ov /\
    match args_save_overlay args with
    | None =>
        written (fst (main putText imread imwrite args w)) = written w /\
        snd (main putText imread imwrite args w) = None
    | Some path =>
        match imwrite path ov with
        | Some true =>
            written (fst (main putText imread imwrite args w)) =
              (written w ++ [(path, ov)])%list /\
            snd (main putText imread imwrite args w) = None
        | Some false =>
            written (fst (main putText imread imwrite args w)) = written w /\
            snd (main putText imread imwrite args w) = None
        | None =>
            written (fst (main putText imread imwrite args w)) = written w /\
            snd (main putText imread imwrite args w) = Some cv2_error
        end
    end.
Proof.
  intros Hread. unfold main. rewrite Hread.
  destruct (run_on_fresh_store img (args_min_area args)) as (count & ov & Hrun & _).
  rewrite Hrun. do 3 eexists. exists ov. split; [reflexivity|]. split; [reflexivity|].
  destruct (args_save_overlay args) as [path|]; cbn [nth_error]; [|split; reflexivity].
  destruct (imwrite path ov) as [[|]|]; split; reflexivity.
Qed.

End MainProperties.

Lemma main_prints_count_witness :
  exists count overlay h',
    count_particles putText_dot 0%nat 20 [block_with_crack] = Some ((count, overlay), h') /\
    0 <= count /\
    stdout (fst (main putText_dot imread_example imwrite_example
                   (mkArgs "block.png" 20 None) (mkWorld [] []))) = ([] ++ [str count])%list.
Proof.
  exact (main_prints_count putText_dot imread_example imwrite_example
           (mkArgs "block.png" 20 None) (mkWorld [] []) block_with_crack eq_refl).
Defined.

Lemma main_writes_overlay_on_request_witness :
  exists count overlay h' ov,
    count_particles putText_dot 0%nat 20 [block_with_crack] = Some ((count, overlay), h') /\
    nth_error h' overlay = Some ov /\
    written (fst (main putText_dot imread_example imwrite_example
                    (mkArgs "block.png" 20 (Some "out.png"%string)) (mkWorld [] []))) =
      ([] ++ [("out.png"%string, ov)])%list /\
    snd (main putText_dot imread_example imwrite_example
           (mkArgs "block.png" 20 (Some "out.png"%string)) (mkWorld [] [])) = None.
Proof.
  exact (main_writes_overlay_on_request putText_dot imread_example imwrite_example
           (mkArgs "block.png" 20 (Some "out.png"%string)) (mkWorld [] [])
           block_with_crack eq_refl).
Defined.
